(** * Rawi-AI: the local hadith database layer

    A shallow embedding of the data layer of the application
    (app/databases/client.ts, text.ts, migrate.ts, hadith.ts) and the
    properties its specification states about it.

    JavaScript strings are sequences of UTF-16 code units; a code unit is
    an [N] below 65536 and a string is a [list N].  The regular expressions
    of text.ts carry no [u] flag, so they work code unit by code unit. *)

From stdpp Require Import gmap list sorting.
From Stdlib Require Import NArith ZArith Lia.
From Stdlib Require Import String.

Local Open Scope N_scope.

(** ** Strings *)

Abbreviation cu := N.
Abbreviation str := (list N).

(** * app/databases/text.ts *)

Module Text.

(** The ECMAScript [WhiteSpace] and [LineTerminator] code points: the class
    [\s] of a regular expression and the characters [String.prototype.trim]
    removes are this same set. *)
Definition is_space (c : cu) : bool :=
  ((9 <=? c) && (c <=? 13))
  || (c =? 32) || (c =? 160) || (c =? 0x1680)
  || ((0x2000 <=? c) && (c <=? 0x200A))
  || (c =? 0x2028) || (c =? 0x2029) || (c =? 0x202F)
  || (c =? 0x205F) || (c =? 0x3000) || (c =? 0xFEFF).

(** [s.replace(/[class]/g, rep)] for a class of single code units and a
    replacement without [$] patterns: every code unit of the class becomes
    [rep], the others stay. *)
Definition replace_all (cls : cu → bool) (rep : str) (s : str) : str :=
  flat_map (λ c, if cls c then rep else [c]) s.

(** The six character classes of [normalizeArabicText], as written. *)
Definition re_diacritics (c : cu) : bool := (0x064B <=? c) && (c <=? 0x065F).
Definition re_tatweel (c : cu) : bool := c =? 0x0640.
Definition re_alef_forms (c : cu) : bool :=
  (c =? 0x0625) || (c =? 0x0623) || (c =? 0x0622).
Definition re_alif_maqsura (c : cu) : bool := c =? 0x0649.
Definition re_ta_marbuta (c : cu) : bool := c =? 0x0629.
Definition re_not_arabic_or_space (c : cu) : bool :=
  negb (((0x0600 <=? c) && (c <=? 0x06FF)) || is_space c).

Definition alef : cu := 0x0627.
Definition ya : cu := 0x064A.
Definition ha : cu := 0x0647.

(** [String.prototype.trim]. *)
Fixpoint trim_start (s : str) : str :=
  match s with
  | [] => []
  | c :: s' => if is_space c then trim_start s' else s
  end.

Definition trim_end (s : str) : str := rev (trim_start (rev s)).

Definition trim (s : str) : str := trim_end (trim_start s).

Definition normalizeArabicText (input : str) : str :=
  trim
    (replace_all re_not_arabic_or_space []
      (replace_all re_ta_marbuta [ha]
        (replace_all re_alif_maqsura [ya]
          (replace_all re_alef_forms [alef]
            (replace_all re_tatweel []
              (replace_all re_diacritics [] input)))))).

(** [s.split(/\s+/)]: the pieces between the maximal runs of white space.
    A run at the start or at the end leaves an empty piece there, and the
    empty string splits into one empty piece.  [cur] holds the piece being
    read, reversed; [in_sep] says that the previous code unit was white
    space. *)
Fixpoint split_go (s : str) (cur : str) (in_sep : bool) : list str :=
  match s with
  | [] => [rev cur]
  | c :: s' =>
      if is_space c
      then (if in_sep then split_go s' [] true
            else rev cur :: split_go s' [] true)
      else split_go s' (c :: cur) false
  end.

Definition split_spaces (s : str) : list str := split_go s [] false.

(** [Boolean(t)] of a string: it is not empty. *)
Definition truthy (t : str) : bool :=
  match t with [] => false | _ => true end.

Definition tokenizeArabicText (input : str) : list str :=
  List.filter truthy (split_spaces (normalizeArabicText input)).

(** [tokens.join(" ")]. *)
Fixpoint join (sep : str) (tokens : list str) : str :=
  match tokens with
  | [] => []
  | [t] => t
  | t :: rest => t ++ sep ++ join sep rest
  end.

Definition tokensToSearchKeys (tokens : list str) : str := join [32] tokens.

(** *** The pipeline as the specification words it *)

Definition in_diacritic_range (c : cu) : bool := (0x064B <=? c) && (c <=? 0x065F).
Definition in_arabic_block (c : cu) : bool := (0x0600 <=? c) && (c <=? 0x06FF).



(** *** Notions used to state the properties *)

(** Steps 1 to 6 of [normalizeArabicText]: everything before [trim]. *)
Definition fold_text (s : str) : str :=
  replace_all re_not_arabic_or_space []
    (replace_all re_ta_marbuta [ha]
      (replace_all re_alif_maqsura [ya]
        (replace_all re_alef_forms [alef]
          (replace_all re_tatweel []
            (replace_all re_diacritics [] s))))).

(** A code unit no step of the pipeline touches. *)
Definition stable (c : cu) : bool :=
  negb (re_diacritics c) && negb (re_tatweel c) && negb (re_alef_forms c)
  && negb (re_alif_maqsura c) && negb (re_ta_marbuta c)
  && negb (re_not_arabic_or_space c).

(** A string that does not start with white space. *)
Definition starts_clean (s : str) : Prop :=
  match s with
  | [] => True
  | c :: _ => is_space c = false
  end.

(** An Arabic letter: a code unit of the Arabic block that is neither a
    diacritic nor the tatweel. *)
Definition letter (c : cu) : bool :=
  in_arabic_block c && negb (in_diacritic_range c) && negb (c =? 0x0640).

Definition all_spaces (s : str) : Prop := Forall (λ c, is_space c = true) s.
Definition all_letters (s : str) : Prop := Forall (λ c, letter c = true) s.
Definition no_space (s : str) : Prop := Forall (λ c, is_space c = false) s.

End Text.

(** * The SQLite engine behind the connection

    The engine is the library react-native-quick-sqlite, not code of the
    application; what is modelled here is the documented meaning of the
    statements the application sends, on the four tables the migration
    creates.  From the documentation of SQLite: a statement that fails is
    undone alone and leaves an open transaction open, COMMIT is atomic, and
    the schema statements take part in the transaction.  The result of
    [execute] is what the type [SqlResult] of client.ts declares, [rows]
    being an array.  LIKE is modelled on code units, which agrees with the
    engine's matching of UTF-8 text for a pattern without surrogates, as
    a normalized query is; the limit on the length of a LIKE pattern is
    left out. *)

Module Engine.

(** A row of [hadith].  [uid] is the only nullable column: it is added by
    [ALTER TABLE] and is NULL until backfilled. *)
Record HadithRow := mkHadith {
  h_id : str;
  h_collection : str;
  h_text_ar : str;
  h_text_norm : str;
  h_tokens_json : str;
  h_search_keys : str;
  h_uid : option str }.

#[export] Instance HadithRow_eq_dec : EqDecision HadithRow.
Proof. solve_decision. Defined.

(** A row of [collections], without its primary key [id]. *)
Record CollectionRow := mkCollection {
  c_name : str;
  c_version : option str;
  c_description : option str }.

#[export] Instance CollectionRow_eq_dec : EqDecision CollectionRow.
Proof. solve_decision. Defined.

(** The [hadith] table: its rows in rowid order, whether the column [uid]
    exists, and which of its three indexes exist. *)
Record HadithTable := mkTable {
  has_uid : bool;
  rows : list HadithRow;
  idx_hadith_collection : bool;
  idx_hadith_search : bool;
  idx_hadith_uid : bool }.

(** The database file.  A table that does not exist is [None]. *)
Record Database := mkDb {
  journal_wal : bool;
  meta : option (gmap str str);
  collections : option (gmap str CollectionRow);
  hadith : option HadithTable;
  user_selected_collections : option (gset str) }.

Definition empty_file : Database := mkDb false None None None None.

Definition set_journal (b : bool) (d : Database) : Database :=
  mkDb b (meta d) (collections d) (hadith d) (user_selected_collections d).
Definition set_meta (m : option (gmap str str)) (d : Database) : Database :=
  mkDb (journal_wal d) m (collections d) (hadith d) (user_selected_collections d).
Definition set_collections (c : option (gmap str CollectionRow)) (d : Database) : Database :=
  mkDb (journal_wal d) (meta d) c (hadith d) (user_selected_collections d).
Definition set_hadith (h : option HadithTable) (d : Database) : Database :=
  mkDb (journal_wal d) (meta d) (collections d) h (user_selected_collections d).
Definition set_user_selected (u : option (gset str)) (d : Database) : Database :=
  mkDb (journal_wal d) (meta d) (collections d) (hadith d) u.

Definition set_rows (rs : list HadithRow) (t : HadithTable) : HadithTable :=
  mkTable (has_uid t) rs (idx_hadith_collection t) (idx_hadith_search t) (idx_hadith_uid t).

(** The statements of migrate.ts and hadith.ts, one constructor per SQL
    text, with the bound parameters as arguments. *)
Inductive Sql :=
  | Begin | Commit | Rollback
  | PragmaJournalModeWal
  | PragmaForeignKeysOn
  | PragmaTableInfo (table : string)
  | CreateTableMeta
  | CreateTableCollections
  | CreateTableHadith
  | CreateTableUserSelected
  | AlterHadithAddUid
  | UpdateHadithBackfillUid
  | CreateIndexHadithCollection
  | CreateIndexHadithSearch
  | CreateUniqueIndexHadithUid
  | InsertCollectionsFromHadith
  | SelectMetaSeeded
  | SelectCountHadith
  | InsertOrReplaceMetaSeeded
  | InsertOrIgnoreCollection (id name : str) (version description : option str)
  | InsertOrReplaceHadith (r : HadithRow)
  | SelectHadithLike (pattern : str).

(** The [rows] of a result. *)
Inductive ResultRows :=
  | NoRows
  | ColumnNames (names : list string)
  | Values (vs : list str)
  | Count (c : N)
  | HadithRows (rs : list HadithRow).

Inductive EngineError :=
  | CannotOpen
  | NoSuchTable
  | NoSuchColumn
  | DuplicateColumn
  | UniqueConstraint
  | TransactionActive
  | NoTransaction
  | IoFailure.

(** *** LIKE *)

Definition percent : cu := 37.
Definition underscore : cu := 95.

(** LIKE folds the case of the ASCII letters only. *)
Definition ascii_fold (c : cu) : cu :=
  if (65 <=? c) && (c <=? 90) then c + 32 else c.

(** [like p s]: the text [s] matches the LIKE pattern [p]; [%] stands for
    any run of characters, [_] for any one character. *)
Fixpoint like (p : str) (s : str) : bool :=
  match p with
  | [] => match s with [] => true | _ => false end
  | c :: p' =>
      if c =? percent then
        (fix star (s : str) : bool :=
           like p' s || match s with [] => false | _ :: s' => star s' end) s
      else
        match s with
        | [] => false
        | d :: s' =>
            ((c =? underscore) || (ascii_fold c =? ascii_fold d)) && like p' s'
        end
  end.

(** *** ORDER BY collection, CAST(id AS INTEGER) *)

Definition is_high_surrogate (c : cu) : bool := (0xD800 <=? c) && (c <=? 0xDBFF).
Definition is_low_surrogate (c : cu) : bool := (0xDC00 <=? c) && (c <=? 0xDFFF).

(** The engine stores text as UTF-8 and the BINARY collation compares its
    bytes, which is the order of the code points. *)
Fixpoint code_points (s : str) : list N :=
  match s with
  | [] => []
  | hi :: s' =>
      match s' with
      | lo :: s'' =>
          if is_high_surrogate hi && is_low_surrogate lo
          then (0x10000 + (hi - 0xD800) * 0x400 + (lo - 0xDC00)) :: code_points s''
          else hi :: code_points s'
      | [] => [hi]
      end
  end.

Fixpoint lex_compare (a b : list N) : comparison :=
  match a, b with
  | [], [] => Eq
  | [], _ :: _ => Lt
  | _ :: _, [] => Gt
  | x :: a', y :: b' =>
      match x ?= y with
      | Eq => lex_compare a' b'
      | o => o
      end
  end.

Definition sqlite_space (c : cu) : bool := (c =? 32) || ((9 <=? c) && (c <=? 13)).
Definition is_digit (c : cu) : bool := (48 <=? c) && (c <=? 57).

Fixpoint skip_spaces (s : str) : str :=
  match s with
  | c :: s' => if sqlite_space c then skip_spaces s' else s
  | [] => []
  end.

Fixpoint digits_value (s : str) (acc : Z) : Z :=
  match s with
  | c :: s' =>
      if is_digit c then digits_value s' (10 * acc + Z.of_N (c - 48))%Z else acc
  | [] => acc
  end.

Definition int64_clamp (z : Z) : Z :=
  Z.max (-9223372036854775808) (Z.min 9223372036854775807 z).

(** [CAST(text AS INTEGER)]: the longest integer prefix after leading
    spaces, 0 when there is none, clamped to 64 bits. *)
Definition cast_integer (s : str) : Z :=
  let s1 := skip_spaces s in
  match s1 with
  | 45 :: r => int64_clamp (- digits_value r 0)
  | 43 :: r => int64_clamp (digits_value r 0)
  | _ => int64_clamp (digits_value s1 0)
  end.

Definition row_leb (a b : HadithRow) : bool :=
  match lex_compare (code_points (h_collection a)) (code_points (h_collection b)) with
  | Lt => true
  | Gt => false
  | Eq => (cast_integer (h_id a) <=? cast_integer (h_id b))%Z
  end.

Definition row_le (a b : HadithRow) : Prop := row_leb a b = true.

#[export] Instance row_le_dec (a b : HadithRow) : Decision (row_le a b).
Proof. unfold row_le. apply _. Defined.

Definition order_by_collection_id (rs : list HadithRow) : list HadithRow :=
  merge_sort row_le rs.

(** *** Statements that read or write the tables *)

Definition seeded_key : str := [115; 101; 101; 100; 101; 100].   (* 'seeded' *)
Definition one : str := [49].                                    (* '1' *)
Definition colon : str := [58].                                  (* ':' *)

Definition table_columns (table : string) : list string :=
  if String.eqb table "meta" then ["key"; "value"]%string
  else if String.eqb table "collections" then ["id"; "name"; "version"; "description"]%string
  else if String.eqb table "user_selected_collections" then ["id"]%string
  else ["id"; "collection"; "text_ar"; "text_norm"; "tokens_json"; "search_keys"]%string.

(** The UNIQUE index on [uid]: no two rows share a uid that is not NULL. *)
Definition uids (rs : list HadithRow) : list str := omap h_uid rs.
Definition uids_unique (rs : list HadithRow) : bool := bool_decide (NoDup (uids rs)).

Definition backfill_uid (r : HadithRow) : HadithRow :=
  match h_uid r with
  | Some _ => r
  | None =>
      mkHadith (h_id r) (h_collection r) (h_text_ar r) (h_text_norm r)
        (h_tokens_json r) (h_search_keys r)
        (Some (h_collection r ++ colon ++ h_id r))
  end.

Definition clear_uid (r : HadithRow) : HadithRow :=
  mkHadith (h_id r) (h_collection r) (h_text_ar r) (h_text_norm r)
    (h_tokens_json r) (h_search_keys r) None.

(** [uid] conflicts with the row [r] under the UNIQUE index. *)
Definition same_uid (u : option str) (r : HadithRow) : bool :=
  match u, h_uid r with
  | Some a, Some b => bool_decide (a = b)
  | _, _ => false
  end.

Definition insert_or_ignore_collection (id : str) (c : CollectionRow)
    (m : gmap str CollectionRow) : gmap str CollectionRow :=
  match m !! id with
  | Some _ => m
  | None => <[id := c]> m
  end.

Definition present {A} (o : option A) : bool :=
  match o with Some _ => true | None => false end.

Definition ok {A} (d : Database) (r : A) : EngineError + (Database * A) := inr (d, r).

(** The effect of one statement on a database: the new database and the
    result rows, or the error that leaves the database as it was. *)
Definition apply_sql (q : Sql) (d : Database) : EngineError + (Database * ResultRows) :=
  match q with
  | Begin | Commit | Rollback | PragmaJournalModeWal | PragmaForeignKeysOn =>
      ok d NoRows
  | PragmaTableInfo table =>
      if String.eqb table "hadith" then
        match hadith d with
        | None => ok d (ColumnNames [])
        | Some t =>
            ok d (ColumnNames
              (table_columns table ++ (if has_uid t then ["uid"%string] else [])))
        end
      else if String.eqb table "meta" then
        ok d (ColumnNames (if present (meta d) then table_columns table else []))
      else if String.eqb table "collections" then
        ok d (ColumnNames (if present (collections d) then table_columns table else []))
      else if String.eqb table "user_selected_collections" then
        ok d (ColumnNames (if present (user_selected_collections d) then table_columns table else []))
      else ok d (ColumnNames [])
  | CreateTableMeta =>
      match meta d with
      | Some _ => ok d NoRows
      | None => ok (set_meta (Some ∅) d) NoRows
      end
  | CreateTableCollections =>
      match collections d with
      | Some _ => ok d NoRows
      | None => ok (set_collections (Some ∅) d) NoRows
      end
  | CreateTableHadith =>
      match hadith d with
      | Some _ => ok d NoRows
      | None => ok (set_hadith (Some (mkTable false [] false false false)) d) NoRows
      end
  | CreateTableUserSelected =>
      match user_selected_collections d with
      | Some _ => ok d NoRows
      | None => ok (set_user_selected (Some ∅) d) NoRows
      end
  | AlterHadithAddUid =>
      match hadith d with
      | None => inl NoSuchTable
      | Some t =>
          if has_uid t then inl DuplicateColumn
          else ok (set_hadith (Some (mkTable true (map clear_uid (rows t))
                     (idx_hadith_collection t) (idx_hadith_search t) (idx_hadith_uid t))) d)
                  NoRows
      end
  | UpdateHadithBackfillUid =>
      match hadith d with
      | None => inl NoSuchTable
      | Some t =>
          if negb (has_uid t) then inl NoSuchColumn
          else
            let rs := map backfill_uid (rows t) in
            if idx_hadith_uid t && negb (uids_unique rs) then inl UniqueConstraint
            else ok (set_hadith (Some (set_rows rs t)) d) NoRows
      end
  | CreateIndexHadithCollection =>
      match hadith d with
      | None => inl NoSuchTable
      | Some t =>
          ok (set_hadith (Some (mkTable (has_uid t) (rows t) true
                (idx_hadith_search t) (idx_hadith_uid t))) d) NoRows
      end
  | CreateIndexHadithSearch =>
      match hadith d with
      | None => inl NoSuchTable
      | Some t =>
          ok (set_hadith (Some (mkTable (has_uid t) (rows t)
                (idx_hadith_collection t) true (idx_hadith_uid t))) d) NoRows
      end
  | CreateUniqueIndexHadithUid =>
      match hadith d with
      | None => inl NoSuchTable
      | Some t =>
          if idx_hadith_uid t then ok d NoRows
          else if negb (has_uid t) then inl NoSuchColumn
          else if negb (uids_unique (rows t)) then inl UniqueConstraint
          else ok (set_hadith (Some (mkTable (has_uid t) (rows t)
                     (idx_hadith_collection t) (idx_hadith_search t) true)) d) NoRows
      end
  | InsertCollectionsFromHadith =>
      match collections d, hadith d with
      | Some m, Some t =>
          ok (set_collections
                (Some (foldl (λ m r, insert_or_ignore_collection (h_collection r)
                                        (mkCollection (h_collection r) None None) m)
                         m (rows t))) d) NoRows
      | _, _ => inl NoSuchTable
      end
  | SelectMetaSeeded =>
      match meta d with
      | None => inl NoSuchTable
      | Some m =>
          ok d (Values (match m !! seeded_key with Some v => [v] | None => [] end))
      end
  | SelectCountHadith =>
      match hadith d with
      | None => inl NoSuchTable
      | Some t => ok d (Count (N.of_nat (List.length (rows t))))
      end
  | InsertOrReplaceMetaSeeded =>
      match meta d with
      | None => inl NoSuchTable
      | Some m => ok (set_meta (Some (<[seeded_key := one]> m)) d) NoRows
      end
  | InsertOrIgnoreCollection id name version description =>
      match collections d with
      | None => inl NoSuchTable
      | Some m =>
          ok (set_collections
                (Some (insert_or_ignore_collection id
                         (mkCollection name version description) m)) d) NoRows
      end
  | InsertOrReplaceHadith r =>
      match hadith d with
      | None => inl NoSuchTable
      | Some t =>
          if negb (has_uid t) then inl NoSuchColumn
          else
            let kept :=
              if idx_hadith_uid t
              then List.filter (λ r', negb (same_uid (h_uid r) r')) (rows t)
              else rows t in
            ok (set_hadith (Some (set_rows (kept ++ [r]) t)) d) NoRows
      end
  | SelectHadithLike pattern =>
      match hadith d with
      | None => inl NoSuchTable
      | Some t =>
          ok d (HadithRows
                  (take 100 (order_by_collection_id
                     (List.filter (λ r, like pattern (h_search_keys r)) (rows t)))))
      end
  end.

End Engine.

(** * app/databases/errors.ts, app/utils/logger.ts, app/databases/client.ts *)

Module Client.
Import Engine.

(** What is thrown: an error of the engine, or a [DBError] with its
    message, its [meta] (the failing statement) and its [cause]. *)
Inductive Exn :=
  | EngineFailure (e : EngineError)
  | DBError (message : string) (meta : option Sql) (cause : Exn).

Inductive Level := INFO | WARN | ERROR.

Inductive LogArgs :=
  | NoArgs
  | ErrArg (err : Exn)
  | SqlArg (sql : Sql) (err : Exn)
  | RowArg (id collection : str) (err : Exn)
  | SeedCounts (inserted skipped : nat).

Record LogLine := mkLog { level : Level; message : string; args : LogArgs }.

(** What the environment does to the next call into the engine: it lets it
    through, makes it fail (the engine reports an error and the statement
    has no effect), or the process is killed at that point. *)
Inductive Fault := Pass | Raise | Crash.

(** The process and its database file.  [disk] is what is committed;
    [txn] is the working copy of an open transaction, lost when the process
    stops.  [DEV] is the build constant [__DEV__]. *)
Record World := mkWorld {
  DEV : bool;
  cachedConnection : bool;
  disk : Database;
  txn : option Database;
  foreign_keys : bool;
  faults : list Fault;
  console : list LogLine }.

Definition set_cached (b : bool) (w : World) : World :=
  mkWorld (DEV w) b (disk w) (txn w) (foreign_keys w) (faults w) (console w).
Definition set_disk (d : Database) (w : World) : World :=
  mkWorld (DEV w) (cachedConnection w) d (txn w) (foreign_keys w) (faults w) (console w).
Definition set_txn (t : option Database) (w : World) : World :=
  mkWorld (DEV w) (cachedConnection w) (disk w) t (foreign_keys w) (faults w) (console w).
Definition set_foreign_keys (b : bool) (w : World) : World :=
  mkWorld (DEV w) (cachedConnection w) (disk w) (txn w) b (faults w) (console w).
Definition set_faults (fs : list Fault) (w : World) : World :=
  mkWorld (DEV w) (cachedConnection w) (disk w) (txn w) (foreign_keys w) fs (console w).
Definition set_console (c : list LogLine) (w : World) : World :=
  mkWorld (DEV w) (cachedConnection w) (disk w) (txn w) (foreign_keys w) (faults w) c.

(** The database the next statement sees. *)
Definition view (w : World) : Database :=
  match txn w with
  | Some d => d
  | None => disk w
  end.

Definition set_view (d : Database) (w : World) : World :=
  match txn w with
  | Some _ => set_txn (Some d) w
  | None => set_disk d w
  end.

(** *** Computations: state, exceptions, and the process stopping *)

Inductive Outcome (A : Type) :=
  | Returned (a : A)
  | Thrown (e : Exn)
  | Halted.
Arguments Returned {A} a.
Arguments Thrown {A} e.
Arguments Halted {A}.

Definition M (A : Type) : Type := World → Outcome A * World.

Definition ret {A} (a : A) : M A := λ w, (Returned a, w).

Definition bind {A B} (m : M A) (k : A → M B) : M B := λ w,
  match m w with
  | (Returned a, w') => k a w'
  | (Thrown e, w') => (Thrown e, w')
  | (Halted, w') => (Halted, w')
  end.

Definition throw {A} (e : Exn) : M A := λ w, (Thrown e, w).

(** [try { body } catch (err) { handler }]. *)
Definition try_catch {A} (body : M A) (handler : Exn → M A) : M A := λ w,
  match body w with
  | (Thrown e, w') => handler e w'
  | r => r
  end.

Notation "'let*' x := m 'in' k" := (bind m (λ x, k))
  (at level 10, x name, m at level 100, k at level 200).
Notation "m1 >> m2" := (bind m1 (λ _, m2))
  (at level 100, m2 at level 200, right associativity).

(** *** logger.ts *)

Definition emit (l : LogLine) : M unit := λ w,
  (Returned (), set_console (console w ++ [l]) w).

Definition log_info (msg : string) (a : LogArgs) : M unit := λ w,
  if DEV w then emit (mkLog INFO msg a) w else (Returned (), w).
Definition log_warn (msg : string) (a : LogArgs) : M unit := λ w,
  if DEV w then emit (mkLog WARN msg a) w else (Returned (), w).
Definition log_error (msg : string) (a : LogArgs) : M unit :=
  emit (mkLog ERROR msg a).

(** *** The connection *)

(** The fault met by the next call, and the world once it is consumed; a
    schedule that has run out lets every later call through. *)
Definition pop (w : World) : World := set_faults (tail (faults w)) w.

Definition next_fault (w : World) : Fault * World :=
  (match faults w with [] => Pass | f :: _ => f end, pop w).

(** [open({ name: "hadith.db" })]: the file is created when absent, which
    is the empty database [disk] then already holds. *)
Definition open : M unit := λ w,
  let '(f, w1) := next_fault w in
  match f with
  | Crash => (Halted, w1)
  | Raise => (Thrown (EngineFailure CannotOpen), w1)
  | Pass => (Returned (), set_cached true w1)
  end.

(** One statement on the connection.  Transaction control and the two
    PRAGMAs act on the connection; the other statements act on the
    database in view. *)
Definition conn_execute (q : Sql) (w : World) : EngineError + (World * ResultRows) :=
  match q with
  | Begin =>
      match txn w with
      | Some _ => inl TransactionActive
      | None => inr (set_txn (Some (disk w)) w, NoRows)
      end
  | Commit =>
      match txn w with
      | Some d => inr (set_txn None (set_disk d w), NoRows)
      | None => inl NoTransaction
      end
  | Rollback =>
      match txn w with
      | Some _ => inr (set_txn None w, NoRows)
      | None => inl NoTransaction
      end
  | PragmaJournalModeWal =>
      match txn w with
      | Some _ => inr (w, NoRows)
      | None => inr (set_disk (set_journal true (disk w)) w, NoRows)
      end
  | PragmaForeignKeysOn =>
      match txn w with
      | Some _ => inr (w, NoRows)
      | None => inr (set_foreign_keys true w, NoRows)
      end
  | _ =>
      match apply_sql q (view w) with
      | inl e => inl e
      | inr (d, r) => inr (set_view d w, r)
      end
  end.

(** [connection.execute(sql, params)]. *)
Definition execute (q : Sql) : M ResultRows := λ w,
  let '(f, w1) := next_fault w in
  match f with
  | Crash => (Halted, w1)
  | Raise => (Thrown (EngineFailure IoFailure), w1)
  | Pass =>
      match conn_execute q w1 with
      | inl e => (Thrown (EngineFailure e), w1)
      | inr (w2, r) => (Returned r, w2)
      end
  end.

Definition getDatabaseConnection : M unit := λ w,
  if cachedConnection w then (Returned (), w)
  else
    try_catch open
      (λ err,
         log_error "Failed to open database" (ErrArg err) >>
         throw (DBError "Failed to open the local database." None err)) w.

Definition runSql (sql : Sql) : M ResultRows :=
  try_catch
    (getDatabaseConnection >> execute sql)
    (λ err,
       log_error "SQL failed" (SqlArg sql err) >>
       throw (DBError "SQL execution failed." (Some sql) err)).

Definition runTransaction {T} (doWork : M T) : M T :=
  getDatabaseConnection >>
  try_catch
    (execute Begin >>
     let* result := doWork in
     execute Commit >>
     ret result)
    (λ err,
       try_catch (execute Rollback >> ret ()) (λ _, ret ()) >>
       log_error "Transaction failed" (ErrArg err) >>
       throw (DBError "Database transaction failed." None err)).

End Client.

(** * app/databases/migrate.ts *)

Module Migrate.
Import Engine Client.

(** [res.rows || []] of a [PRAGMA table_info]: the column names. *)
Definition column_names (res : ResultRows) : list string :=
  match res with
  | ColumnNames ns => ns
  | _ => []
  end.

Definition columnExists (table column : string) : M bool :=
  let* res := runSql (PragmaTableInfo table) in
  ret (existsb (λ name, String.eqb name column) (column_names res)).

Definition runMigrations : M unit :=
  runSql PragmaJournalModeWal >>
  runSql PragmaForeignKeysOn >>
  runTransaction
    (runSql CreateTableMeta >>
     runSql CreateTableCollections >>
     runSql CreateTableHadith >>
     (let* present := columnExists "hadith" "uid" in
      if negb present
      then runSql AlterHadithAddUid >> runSql UpdateHadithBackfillUid >> ret ()
      else ret ()) >>
     runSql CreateIndexHadithCollection >>
     runSql CreateIndexHadithSearch >>
     runSql CreateUniqueIndexHadithUid >>
     runSql CreateTableUserSelected >>
     runSql InsertCollectionsFromHadith >>
     ret ()) >>
  log_info "Migration OK (single-DB; partitioned by collection)." NoArgs.

End Migrate.

(** * app/databases/hadith.ts *)

Module Hadith.
Import Text Engine Client.

Record SeedItem := mkSeed {
  s_id : str;
  s_collection : str;
  s_text_ar : str;
  s_tokens : option (list str) }.

(** *** JSON.stringify of an array of strings *)

Definition hex_digit (n : N) : cu := if n <? 10 then 48 + n else 87 + n.

Definition unicode_escape (c : cu) : str :=
  [92; 117; hex_digit ((c / 4096) mod 16); hex_digit ((c / 256) mod 16);
   hex_digit ((c / 16) mod 16); hex_digit (c mod 16)].

Fixpoint quote_chars (s : str) : str :=
  match s with
  | [] => []
  | c :: s' =>
      if c =? 8 then [92; 98] ++ quote_chars s'
      else if c =? 9 then [92; 116] ++ quote_chars s'
      else if c =? 10 then [92; 110] ++ quote_chars s'
      else if c =? 12 then [92; 102] ++ quote_chars s'
      else if c =? 13 then [92; 114] ++ quote_chars s'
      else if c =? 34 then [92; 34] ++ quote_chars s'
      else if c =? 92 then [92; 92] ++ quote_chars s'
      else if c <? 32 then unicode_escape c ++ quote_chars s'
      else if is_high_surrogate c then
        match s' with
        | lo :: s'' =>
            if is_low_surrogate lo then c :: lo :: quote_chars s''
            else unicode_escape c ++ quote_chars s'
        | [] => unicode_escape c
        end
      else if is_low_surrogate c then unicode_escape c ++ quote_chars s'
      else c :: quote_chars s'
  end.

Definition json_string (s : str) : str := [34] ++ quote_chars s ++ [34].

Definition JSON_stringify (tokens : list str) : str :=
  [91] ++ join [44] (map json_string tokens) ++ [93].

(** *** Helpers *)

Definition isValidSeedItem (item : SeedItem) : bool :=
  truthy (s_id item) && truthy (s_collection item) && truthy (s_text_ar item).

(** [a || b] on an optional string: [a] when it is given and not empty. *)
Definition or_else (a : option str) (b : option str) : option str :=
  match a with
  | Some (_ :: _) => a
  | _ => b
  end.

Definition upsertCollection (collectionId : str)
    (displayName version description : option str) : M unit :=
  runSql (InsertOrIgnoreCollection collectionId
            (default collectionId (or_else displayName (Some collectionId)))
            (or_else version None) (or_else description None)) >>
  ret ().

(** [rows?.[0]?.value] and [rows?.[0]?.c ?? 0]. *)
Definition first_value (res : ResultRows) : option str :=
  match res with
  | Values (v :: _) => Some v
  | _ => None
  end.

Definition first_count (res : ResultRows) : N :=
  match res with
  | Count c => c
  | _ => 0
  end.


(** [Array.from(new Set(l))]: the distinct elements, in order of first
    appearance. *)
Definition set_from (l : list str) : list str :=
  foldl (λ acc x, if bool_decide (x ∈ acc) then acc else acc ++ [x]) [] l.

Fixpoint for_of {A} (l : list A) (body : A → M unit) : M unit :=
  match l with
  | [] => ret ()
  | x :: rest => body x >> for_of rest body
  end.

(** The values bound to the INSERT of one seed item. *)
Definition row_of_item (item : SeedItem) : HadithRow :=
  let providedTokens :=
    match s_tokens item with
    | Some (t :: ts) => Some (t :: ts)
    | _ => None
    end in
  let normalizedTokens :=
    match providedTokens with
    | Some ts => List.filter truthy (map normalizeArabicText ts)
    | None => tokenizeArabicText (s_text_ar item)
    end in
  let normalizedText := normalizeArabicText (s_text_ar item) in
  let tokensJson := JSON_stringify normalizedTokens in
  let searchKeys := tokensToSearchKeys normalizedTokens in
  let uid := s_collection item ++ colon ++ s_id item in
  mkHadith (s_id item) (s_collection item) (s_text_ar item)
    normalizedText tokensJson searchKeys (Some uid).

(** The loop of the seeding transaction; [inserted] and [skipped] are the
    two counters it updates. *)
Fixpoint seed_items (items : list SeedItem) (inserted skipped : nat) : M (nat * nat) :=
  match items with
  | [] => ret (inserted, skipped)
  | item :: rest =>
      if negb (isValidSeedItem item) then seed_items rest inserted (S skipped)
      else
        let* done :=
          try_catch
            (runSql (InsertOrReplaceHadith (row_of_item item)) >> ret true)
            (λ err,
               log_warn "Seed insert failed; skipping row"
                 (RowArg (s_id item) (s_collection item) err) >>
               ret false) in
        if done then seed_items rest (S inserted) skipped
        else seed_items rest inserted (S skipped)
  end.

Section Seeding.

(** The bundled dataset assets/hadiths/seed-lite.json. *)
Variable seedData : list SeedItem.

Definition uniqueCollections : list str :=
  set_from (map s_collection (List.filter isValidSeedItem seedData)).

Definition seed_transaction : M (nat * nat) :=
  runTransaction
    (let* counts := seed_items seedData 0 0 in
     runSql InsertOrReplaceMetaSeeded >>
     ret counts).

Definition fresh_import : M unit :=
  for_of uniqueCollections (λ col, upsertCollection col None None None) >>
  let* counts := seed_transaction in
  log_info "Seed completed." (SeedCounts (fst counts) (snd counts)).

Definition seedDatabaseIfEmpty : M unit :=
  let* res := runSql SelectMetaSeeded in
  let seededFlag := first_value res in
  if bool_decide (seededFlag = Some one)
  then log_info "Seed skipped (meta.flag already set)." NoArgs
  else
    let* res := runSql SelectCountHadith in
    let existingCount := first_count res in
    if 0 <? existingCount
    then
      runSql InsertOrReplaceMetaSeeded >>
      log_info "Seed skipped (hadith table already populated)." NoArgs
    else fresh_import.

End Seeding.

(** *** Queries *)


End Hadith.

(** * Notions used to state the properties of the database layer *)

Module Notions.
Import Text Engine Client Migrate Hadith.

(** *** The environment *)

(** The first [n] calls into the engine meet no fault. *)
Definition passing (n : nat) (fs : list Fault) : Prop :=
  Forall (λ f, f = Pass) (take n fs).

(** No call is cut short by the process stopping. *)
Definition no_crash (fs : list Fault) : Prop := Forall (λ f, f ≠ Crash) fs.

(** The statements that read or write tables, as opposed to transaction
    control and connection settings. *)
Definition is_data (q : Sql) : bool :=
  match q with
  | Begin | Commit | Rollback | PragmaJournalModeWal | PragmaForeignKeysOn => false
  | _ => true
  end.

(** *** What a computation does to the database *)

(** The database, committed and in the open transaction, is untouched. *)
Definition same_db (w w' : World) : Prop :=
  disk w' = disk w ∧ txn w' = txn w.

(** The database in view became [d] and nothing else of the database
    changed. *)
Definition wrote (d : Database) (w w' : World) : Prop :=
  disk w' = disk (set_view d w) ∧ txn w' = txn (set_view d w).

(** What no call changes: the build constant; and what only moves one
    way: the connection stays open and the schedule is consumed from the
    front. *)
Definition frame (w w' : World) : Prop :=
  DEV w' = DEV w
  ∧ (cachedConnection w = true → cachedConnection w' = true)
  ∧ faults w' `suffix_of` faults w.

(** A computation that only reads and writes the database in view, and
    takes it from [d] to some [d'] with [R d d']: outside a transaction it
    is the committed database that moves, inside one it is the working
    copy, and the committed database stays. *)
Definition evolves (R : relation Database) {A} (m : M A) : Prop :=
  ∀ w o w', m w = (o, w') →
    frame w w'
    ∧ (o = Halted → ¬ no_crash (faults w))
    ∧ match txn w with
      | None => txn w' = None ∧ R (disk w) (disk w')
      | Some d => disk w' = disk w ∧ ∃ d', txn w' = Some d' ∧ R d d'
      end.

(** No constraint on how the database in view moves. *)
Definition any_change (d d' : Database) : Prop := True.

(** The tables the import must not touch before it commits. *)
Definition same_meta_hadith (d d' : Database) : Prop :=
  meta d' = meta d ∧ hadith d' = hadith d.

(** The four tables, their columns, indexes and contents, are the same. *)
Definition same_tables (d d' : Database) : Prop :=
  meta d' = meta d ∧ collections d' = collections d
  ∧ hadith d' = hadith d
  ∧ user_selected_collections d' = user_selected_collections d.

(** [I] holds of the committed database and of the working copy of the
    open transaction, if there is one. *)
Definition holds (I : Database → Prop) (w : World) : Prop :=
  I (disk w) ∧ ∀ d, txn w = Some d → I d.

(** A computation that maintains [I], however it ends. *)
Definition keeps (I : Database → Prop) {A} (m : M A) : Prop :=
  ∀ w o w', m w = (o, w') → holds I w → holds I w'.

(** *** The schema *)

(** A fully migrated database: write-ahead logging, the four tables, the
    column [uid], the three indexes, and every collection of a hadith row
    registered. *)
Definition migrated (d : Database) : Prop :=
  ∃ m c rs u,
    d = mkDb true (Some m) (Some c) (Some (mkTable true rs true true true)) (Some u)
    ∧ Forall (λ r, is_Some (c !! h_collection r)) rs.


(** A database from before the column [uid]: its hadith table, if it has
    one, lacks the column. *)
Definition pre_uid (d : Database) : Prop :=
  match hadith d with
  | Some t => has_uid t = false
  | None => True
  end.

(** The schema and contents a first start leaves on an empty file. *)
Definition fresh_schema : Database :=
  mkDb true (Some ∅) (Some ∅) (Some (mkTable true [] true true true)) (Some ∅).

(** A process that has just started on a file holding [d]. *)
Definition started (dev : bool) (d : Database) : World :=
  mkWorld dev false d None false [] [].

(** *** The uid and the flag *)

(** The uid of a row is [collection:id]. *)
Definition uid_derived (r : HadithRow) : Prop :=
  h_uid r = Some (h_collection r ++ colon ++ h_id r).

(** The hadith table carries the UNIQUE index, every uid is derived from
    its row, and no two rows share one. *)
Definition hadith_ok (d : Database) : Prop :=
  match hadith d with
  | Some t =>
      idx_hadith_uid t = true
      ∧ Forall uid_derived (rows t)
      ∧ NoDup (map h_uid (rows t))
  | None => True
  end.


(** *** What seeding is expected to leave *)

(** INSERT OR REPLACE under the UNIQUE index on [uid]: the rows with the
    uid of [r] go, [r] is appended. *)
Definition replace_into (r : HadithRow) (rs : list HadithRow) : list HadithRow :=
  List.filter (λ r', negb (same_uid (h_uid r) r')) rs ++ [r].

Definition replace_all_into (rs : list HadithRow) (items : list SeedItem) : list HadithRow :=
  foldl (λ rs item, replace_into (row_of_item item) rs) rs items.

Definition valid_items (items : list SeedItem) : list SeedItem :=
  List.filter isValidSeedItem items.

(** The valid items whose INSERT meets no fault, when the INSERTs meet the
    faults [fs] in order. *)
Fixpoint survivors (items : list SeedItem) (fs : list Fault) : list SeedItem :=
  match items with
  | [] => []
  | item :: rest =>
      if isValidSeedItem item then
        match fs with
        | Raise :: fs' | Crash :: fs' => survivors rest fs'
        | Pass :: fs' => item :: survivors rest fs'
        | [] => item :: survivors rest []
        end
      else survivors rest fs
  end.

(** The console lines of one failed INSERT. *)
Definition failure_lines (dev : bool) (item : SeedItem) : list LogLine :=
  let err := EngineFailure IoFailure in
  let q := InsertOrReplaceHadith (row_of_item item) in
  mkLog ERROR "SQL failed" (SqlArg q err)
  :: (if dev
      then [mkLog WARN "Seed insert failed; skipping row"
              (RowArg (s_id item) (s_collection item)
                 (DBError "SQL execution failed." (Some q) err))]
      else []).

Fixpoint row_logs (dev : bool) (items : list SeedItem) (fs : list Fault) : list LogLine :=
  match items with
  | [] => []
  | item :: rest =>
      if isValidSeedItem item then
        match fs with
        | Raise :: fs' | Crash :: fs' => failure_lines dev item ++ row_logs dev rest fs'
        | Pass :: fs' => row_logs dev rest fs'
        | [] => row_logs dev rest []
        end
      else row_logs dev rest fs
  end.




(** The collections table once the collections of the seed are registered. *)
Definition register_collections (cols : list str) (c : gmap str CollectionRow)
    : gmap str CollectionRow :=
  foldl (λ m col, insert_or_ignore_collection col (mkCollection col None None) m) c cols.

(** The database a completed import commits, from a database with the
    tables [m], [c] and [t], when the INSERTs meet the faults [fs]. *)
Definition imported (seedData : list SeedItem) (fs : list Fault)
    (m : gmap str str) (c : gmap str CollectionRow) (t : HadithTable)
    (d : Database) : Database :=
  set_meta (Some (<[seeded_key := one]> m))
    (set_hadith (Some (set_rows (replace_all_into (rows t) (survivors seedData fs)) t))
      (set_collections (Some (register_collections (uniqueCollections seedData) c)) d)).

(** The last line of the import on the console of a development build. *)
Definition completed_line (seedData : list SeedItem) (fs : list Fault) : LogLine :=
  mkLog INFO "Seed completed."
    (SeedCounts (List.length (survivors seedData fs))
       (List.length seedData - List.length (survivors seedData fs))).

(** *** Substrings and LIKE *)





(** *** Sample data *)

(** The text ["بِسْمِ الله"] (ba, kasra, sin, sukun, mim, kasra, space,
    alef, lam, lam, ha) and the query ["بسم"] (ba, sin, mim). *)
Definition bismi_allah : str :=
  [0x628; 0x650; 0x633; 0x652; 0x645; 0x650; 32; 0x627; 0x644; 0x644; 0x647].

Definition bukhari : str := [66; 117; 107; 104; 97; 114; 105].   (* "Bukhari" *)

(** Three seed items of one collection, ids 1 to 3. *)
Definition item1 : SeedItem := mkSeed [49] bukhari bismi_allah None.
Definition item2 : SeedItem := mkSeed [50] bukhari [0x627; 0x644; 0x644; 0x647] None.
Definition item3 : SeedItem := mkSeed [51] bukhari [0x628; 0x633; 0x645] None.

Definition empty_table : HadithTable := mkTable true [] true true true.




(** A file of an older build: a hadith table without [uid], holding the
    rows [rs], and nothing else. *)
Definition legacy (rs : list HadithRow) : Database :=
  mkDb false None None (Some (mkTable false rs false false false)) None.

Definition legacy_row (id : str) : HadithRow :=
  mkHadith id bukhari bismi_allah (normalizeArabicText bismi_allah)
    (JSON_stringify (tokenizeArabicText bismi_allah))
    (tokensToSearchKeys (tokenizeArabicText bismi_allah)) None.

End Notions.

(** * Properties of text.ts *)

Module TextFacts.
Import Text.

(** ** [replace] with an empty or a one-character replacement *)



Lemma replace_all_app cls rep (s t : str) :
  replace_all cls rep (s ++ t) = replace_all cls rep s ++ replace_all cls rep t.
Proof. apply flat_map_app. Qed.

(** ** The pipeline, one code unit at a time *)

Lemma normalize_unfold (s : str) : normalizeArabicText s = trim (fold_text s).
Proof. reflexivity. Qed.

Lemma fold_text_app (s t : str) : fold_text (s ++ t) = fold_text s ++ fold_text t.
Proof. unfold fold_text. by rewrite !replace_all_app. Qed.

Lemma fold_text_cons (c : cu) (s : str) : fold_text (c :: s) = fold_text [c] ++ fold_text s.
Proof. apply (fold_text_app [c] s). Qed.

Lemma fold_char_cases (c : cu) :
  fold_text [c] = [] ∨ (∃ c', fold_text [c] = [c'] ∧ stable c' = true).
Proof.
  unfold fold_text, replace_all. simpl.
  destruct (re_diacritics c) eqn:E1; simpl; [by left|].
  destruct (re_tatweel c) eqn:E2; simpl; [by left|].
  destruct (re_alef_forms c) eqn:E3; simpl.
  { right. exists alef. by vm_compute. }
  destruct (re_alif_maqsura c) eqn:E4; simpl.
  { right. exists ya. by vm_compute. }
  destruct (re_ta_marbuta c) eqn:E5; simpl.
  { right. exists ha. by vm_compute. }
  destruct (re_not_arabic_or_space c) eqn:E6; simpl; [by left|].
  right. exists c. split; [done|]. unfold stable. by rewrite E1, E2, E3, E4, E5, E6.
Qed.

Lemma fold_char_stable (c : cu) : stable c = true → fold_text [c] = [c].
Proof.
  unfold stable. rewrite !andb_true_iff, !negb_true_iff.
  intros [[[[[E1 E2] E3] E4] E5] E6].
  unfold fold_text, replace_all. simpl.
  rewrite E1. simpl. rewrite E2. simpl. rewrite E3. simpl.
  rewrite E4. simpl. rewrite E5. simpl. by rewrite E6.
Qed.

Lemma fold_text_all_stable (s : str) : Forall (λ c, stable c = true) (fold_text s).
Proof.
  induction s as [|c s IH]; [constructor|].
  rewrite fold_text_cons. apply Forall_app. split; [|done].
  destruct (fold_char_cases c) as [->|(c' & -> & Hc')]; by repeat constructor.
Qed.

Lemma fold_text_fixes_stable (s : str) :
  Forall (λ c, stable c = true) s → fold_text s = s.
Proof.
  induction 1 as [|c s Hc _ IH]; [reflexivity|].
  rewrite fold_text_cons, IH, fold_char_stable by done. reflexivity.
Qed.

(** ** [trim] *)

Lemma trim_start_clean (s : str) : starts_clean (trim_start s).
Proof.
  induction s as [|c s IH]; [done|].
  simpl. destruct (is_space c) eqn:E; [done|]. simpl. done.
Qed.

Lemma trim_start_id (s : str) : starts_clean s → trim_start s = s.
Proof. destruct s as [|c s]; [done|]. simpl. by intros ->. Qed.

Lemma trim_start_spaces (ws rest : str) :
  Forall (λ c, is_space c = true) ws → trim_start (ws ++ rest) = trim_start rest.
Proof. induction 1 as [|c ws Hc _ IH]; [done|]. simpl. by rewrite Hc. Qed.

Lemma trim_start_snoc (s : str) (c : cu) :
  is_space c = false → trim_start (s ++ [c]) = trim_start s ++ [c].
Proof.
  intros Hc. induction s as [|d s IH]; simpl; [by rewrite Hc|].
  destruct (is_space d); done.
Qed.

Lemma trim_end_cons_clean (c : cu) (s : str) :
  is_space c = false → ∃ s', trim_end (c :: s) = c :: s'.
Proof.
  intros Hc. unfold trim_end. simpl.
  rewrite trim_start_snoc by done. rewrite rev_app_distr. simpl. eauto.
Qed.

Lemma trim_end_keeps_clean (s : str) : starts_clean s → starts_clean (trim_end s).
Proof.
  destruct s as [|c s]; [done|]. intros Hc. simpl in Hc.
  destruct (trim_end_cons_clean c s Hc) as [s' ->]. done.
Qed.

Lemma trim_end_idem (s : str) : trim_end (trim_end s) = trim_end s.
Proof.
  unfold trim_end. rewrite rev_involutive.
  by rewrite (trim_start_id (trim_start _)) by apply trim_start_clean.
Qed.

Lemma trim_idem (s : str) : trim (trim s) = trim s.
Proof.
  unfold trim.
  rewrite (trim_start_id (trim_end _)).
  - apply trim_end_idem.
  - apply trim_end_keeps_clean, trim_start_clean.
Qed.

Lemma trim_start_Forall (P : cu → Prop) (s : str) : Forall P s → Forall P (trim_start s).
Proof.
  induction 1 as [|c s Hc Hs IH]; [constructor|].
  simpl. destruct (is_space c); [done|by constructor].
Qed.

Lemma trim_Forall (P : cu → Prop) (s : str) : Forall P s → Forall P (trim s).
Proof.
  intros H. unfold trim, trim_end.
  apply Forall_rev, trim_start_Forall, Forall_rev, trim_start_Forall, H.
Qed.


(** ** White space and the Arabic block *)

Ltac bool_arith :=
  repeat match goal with
  | H : _ && _ = true |- _ => apply andb_true_iff in H; destruct H
  | H : _ || _ = false |- _ => apply orb_false_iff in H; destruct H
  | H : negb _ = true |- _ => apply negb_true_iff in H
  | H : negb _ = false |- _ => apply negb_false_iff in H
  | H : (_ <=? _) = true |- _ => apply N.leb_le in H
  | H : (_ <=? _) = false |- _ => apply N.leb_gt in H
  | H : (_ =? _) = true |- _ => apply N.eqb_eq in H
  | H : (_ =? _) = false |- _ => apply N.eqb_neq in H
  end.

Ltac decide_cmp :=
  repeat first
    [ apply orb_false_intro
    | apply N.eqb_neq; lia
    | apply andb_false_iff; left; apply N.leb_gt; lia
    | apply andb_false_iff; right; apply N.leb_gt; lia ].

Lemma arabic_not_space (c : cu) : in_arabic_block c = true → is_space c = false.
Proof.
  unfold in_arabic_block. intros H. bool_arith.
  unfold is_space. decide_cmp.
Qed.

Lemma space_not_arabic (c : cu) : is_space c = true → in_arabic_block c = false.
Proof.
  intros H. destruct (in_arabic_block c) eqn:E; [|done].
  apply arabic_not_space in E. congruence.
Qed.

Lemma outside_block_classes (c : cu) :
  in_arabic_block c = false →
  re_diacritics c = false ∧ re_tatweel c = false ∧ re_alef_forms c = false
  ∧ re_alif_maqsura c = false ∧ re_ta_marbuta c = false.
Proof.
  unfold in_arabic_block. intros H.
  apply andb_false_iff in H.
  unfold re_diacritics, re_tatweel, re_alef_forms, re_alif_maqsura, re_ta_marbuta.
  destruct H as [H|H]; apply N.leb_gt in H; repeat split; decide_cmp.
Qed.

Lemma space_stable (c : cu) : is_space c = true → stable c = true.
Proof.
  intros H.
  destruct (outside_block_classes c (space_not_arabic c H)) as (E1 & E2 & E3 & E4 & E5).
  unfold stable. rewrite E1, E2, E3, E4, E5. simpl.
  unfold re_not_arabic_or_space. rewrite H. by rewrite orb_true_r.
Qed.

Lemma fold_text_spaces (ws : str) : all_spaces ws → fold_text ws = ws.
Proof.
  intros H. apply fold_text_fixes_stable.
  eapply Forall_impl; [exact H|]. apply space_stable.
Qed.



(** A letter becomes exactly one code unit, which is not white space. *)
Lemma fold_char_letter (c : cu) :
  letter c = true → ∃ c', fold_text [c] = [c'] ∧ is_space c' = false.
Proof.
  unfold letter, in_diacritic_range. intros H.
  apply andb_true_iff in H as [H E2]. apply andb_true_iff in H as [Hb E1].
  apply negb_true_iff in E1, E2.
  unfold fold_text, replace_all. simpl.
  unfold re_diacritics. rewrite E1. simpl.
  unfold re_tatweel. rewrite E2. simpl.
  destruct (re_alef_forms c) eqn:E3; simpl.
  { exists alef. by vm_compute. }
  destruct (re_alif_maqsura c) eqn:E4; simpl.
  { exists ya. by vm_compute. }
  destruct (re_ta_marbuta c) eqn:E5; simpl.
  { exists ha. by vm_compute. }
  unfold re_not_arabic_or_space. fold (in_arabic_block c). rewrite Hb. simpl.
  exists c. split; [done|]. by apply arabic_not_space.
Qed.

Lemma fold_text_letters (a : str) :
  all_letters a → no_space (fold_text a) ∧ List.length (fold_text a) = List.length a.
Proof.
  induction 1 as [|c a Hc _ [IH1 IH2]]; [by split; [constructor|]|].
  rewrite fold_text_cons.
  destruct (fold_char_letter c Hc) as (c' & -> & Hc').
  split; [by constructor|]. simpl. by rewrite IH2.
Qed.

(** ** [split] *)

Lemma split_go_word (x rest cur : str) :
  no_space x → split_go (x ++ rest) cur false = split_go rest (rev x ++ cur) false.
Proof.
  intros Hx. revert cur. induction Hx as [|c x Hc _ IH]; intros cur; [done|].
  simpl. rewrite Hc, IH. by rewrite <- app_assoc.
Qed.

Lemma split_go_spaces (ws rest : str) :
  all_spaces ws → split_go (ws ++ rest) [] true = split_go rest [] true.
Proof. induction 1 as [|c ws Hc _ IH]; [done|]. simpl. by rewrite Hc. Qed.

Lemma split_two_words (A ws B : str) :
  no_space A → all_spaces ws → ws ≠ [] → no_space B → B ≠ [] →
  split_spaces (A ++ ws ++ B) = [A; B].
Proof.
  intros HA Hws Hne HB HBne. unfold split_spaces.
  rewrite split_go_word by done.
  destruct Hws as [|c ws Hc Hws]; [done|].
  simpl. rewrite Hc. rewrite split_go_spaces by done.
  destruct HB as [|b B Hb HB]; [done|].
  simpl. rewrite Hb.
  rewrite <- (app_nil_r B), split_go_word by done. simpl.
  rewrite app_nil_r, !rev_app_distr, !rev_involutive. simpl.
  by rewrite ?app_nil_r.
Qed.

Lemma trim_padded (w1 A w3 : str) :
  all_spaces w1 → all_spaces w3 → starts_clean A → starts_clean (rev A) →
  trim (w1 ++ A ++ w3) = A.
Proof.
  intros H1 H3 HA HrA. unfold trim.
  rewrite trim_start_spaces by done.
  destruct A as [|a A].
  - simpl. rewrite <- (app_nil_r w3), trim_start_spaces by done. reflexivity.
  - rewrite trim_start_id by done.
    unfold trim_end. rewrite rev_app_distr.
    rewrite trim_start_spaces by by apply Forall_rev.
    rewrite trim_start_id by done. apply rev_involutive.
Qed.

End TextFacts.

(** * The normalizer and the tokenizer *)

Section TextClaims.
Import Text TextFacts.


(** C7: normalizing twice is normalizing once. *)
Theorem normalize_idempotent (s : str) :
  normalizeArabicText (normalizeArabicText s) = normalizeArabicText s.
Proof.
  rewrite !normalize_unfold.
  rewrite (fold_text_fixes_stable (trim (fold_text s))).
  - apply trim_idem.
  - apply trim_Forall, fold_text_all_stable.
Qed.

(** C8, as the specification states it, fails: the normalizer removes the
    Latin letters, so ["  a   b  "] has no token at all. *)
Lemma tokenize_latin_pair_counterexample :
  List.length (tokenizeArabicText [32; 32; 97; 32; 32; 32; 98; 32; 32]) ≠ 2%nat.
Proof. vm_compute. discriminate. Qed.

(** C8, amended: no token is ever empty, and an input of two words of
    Arabic letters, separated by white space and padded with any white
    space, has exactly two tokens. *)
Theorem tokenize_no_empty_token_and_two_words :
  (∀ input : str, Forall (λ t, t ≠ []) (tokenizeArabicText input))
  ∧ (∀ w1 a w2 b w3 : str,
       all_spaces w1 → all_letters a → a ≠ [] →
       all_spaces w2 → w2 ≠ [] →
       all_letters b → b ≠ [] → all_spaces w3 →
       List.length (tokenizeArabicText (w1 ++ a ++ w2 ++ b ++ w3)) = 2%nat).
Proof.
  split.
  - intros input. unfold tokenizeArabicText.
    apply List.Forall_forall. intros t Ht.
    apply filter_In in Ht as [_ Ht]. by destruct t.
  - intros w1 a w2 b w3 H1 Ha Hane H2 H2ne Hb Hbne H3.
    unfold tokenizeArabicText. rewrite normalize_unfold.
    rewrite !fold_text_app, !(fold_text_spaces w1), !(fold_text_spaces w2),
      !(fold_text_spaces w3) by done.
    destruct (fold_text_letters a Ha) as [HA HAlen].
    destruct (fold_text_letters b Hb) as [HB HBlen].
    set (A := fold_text a) in *. set (B := fold_text b) in *.
    assert (HAne : A ≠ []) by (intros E; rewrite E in HAlen; by destruct a).
    assert (HBne : B ≠ []) by (intros E; rewrite E in HBlen; by destruct b).
    replace (w1 ++ A ++ w2 ++ B ++ w3) with (w1 ++ (A ++ w2 ++ B) ++ w3)
      by (by rewrite <- !app_assoc).
    rewrite trim_padded; [| done | done | |].
    + rewrite split_two_words by done. simpl.
      by destruct A, B.
    + destruct HA; [done|]. simpl. done.
    + rewrite !rev_app_distr.
      destruct (rev B) as [|b0 rB] eqn:E.
      * apply (f_equal (@rev _)) in E. rewrite rev_involutive in E. done.
      * simpl. apply Forall_rev in HB. rewrite E in HB. by inversion HB.
Qed.

Lemma tokenize_two_words_witness :
  List.length (tokenizeArabicText
    ([32; 32] ++ [0x628] ++ [32; 32; 32] ++ [0x633; 0x645] ++ [32; 32])) = 2%nat.
Proof.
  apply (proj2 tokenize_no_empty_token_and_two_words);
    try discriminate; repeat constructor.
Defined.

End TextClaims.

(** * Properties of client.ts *)

Module ClientFacts.
Import Engine Client Notions.

Lemma view_pop (w : World) : view (pop w) = view w.
Proof. reflexivity. Qed.

Lemma view_set_view (d : Database) (w : World) : view (set_view d w) = d.
Proof. unfold view, set_view. destruct (txn w) eqn:E; simpl; by rewrite ?E. Qed.

Lemma cached_set_view d w : cachedConnection (set_view d w) = cachedConnection w.
Proof. unfold set_view. by destruct (txn w). Qed.

Lemma faults_set_view d w : faults (set_view d w) = faults w.
Proof. unfold set_view. by destruct (txn w). Qed.

Lemma DEV_set_view d w : DEV (set_view d w) = DEV w.
Proof. unfold set_view. by destruct (txn w). Qed.

Lemma passing_S (n : nat) (fs : list Fault) :
  passing (S n) fs →
  match fs with [] => Pass | f :: _ => f end = Pass ∧ passing n (tail fs).
Proof.
  unfold passing. destruct fs as [|f fs]; simpl.
  - intros _. split; [done|]. by rewrite take_nil.
  - intros H. inversion H as [|? ? H1 H2]. by split.
Qed.

Lemma passing_le (n m : nat) (fs : list Fault) :
  (n ≤ m)%nat → passing m fs → passing n fs.
Proof.
  unfold passing. intros Hle H.
  replace (take n fs) with (take n (take m fs))
    by (rewrite take_take; f_equal; lia).
  by apply Forall_take.
Qed.

Lemma conn_execute_data (q : Sql) (w : World) :
  is_data q = true →
  conn_execute q w =
    match apply_sql q (view w) with
    | inl e => inl e
    | inr (d, r) => inr (set_view d w, r)
    end.
Proof. by destruct q. Qed.

(** A statement that goes through, on an open connection. *)
Lemma runSql_returns (q : Sql) (w w2 : World) (r : ResultRows) :
  cachedConnection w = true → passing 1 (faults w) →
  conn_execute q (pop w) = inr (w2, r) →
  runSql q w = (Returned r, w2).
Proof.
  intros Hc Hp Hq. apply passing_S in Hp as [Hf _].
  unfold runSql, try_catch, bind, getDatabaseConnection, execute, next_fault.
  rewrite Hc, Hf, Hq. reflexivity.
Qed.

Lemma runSql_data_returns (q : Sql) (w : World) (d : Database) (r : ResultRows) :
  cachedConnection w = true → passing 1 (faults w) → is_data q = true →
  apply_sql q (view w) = inr (d, r) →
  runSql q w = (Returned r, set_view d (pop w)).
Proof.
  intros Hc Hp Hd Hq. apply runSql_returns; [done..|].
  rewrite conn_execute_data, view_pop, Hq by done. reflexivity.
Qed.

(** A statement the environment makes fail: the error is logged, wrapped
    in a [DBError] and thrown; the database is as it was. *)
Lemma runSql_raises (q : Sql) (w : World) (fs : list Fault) :
  cachedConnection w = true → faults w = Raise :: fs →
  runSql q w =
    (Thrown (DBError "SQL execution failed." (Some q) (EngineFailure IoFailure)),
     set_console (console w ++
        [mkLog ERROR "SQL failed" (SqlArg q (EngineFailure IoFailure))]) (pop w)).
Proof.
  intros Hc Hf.
  unfold runSql, try_catch, bind, getDatabaseConnection, execute, next_fault.
  rewrite Hc, Hf. reflexivity.
Qed.

(** ** What any call may do, whatever the environment does *)

Lemma frame_refl (w : World) : frame w w.
Proof. by repeat split. Qed.

Lemma frame_trans (w1 w2 w3 : World) : frame w1 w2 → frame w2 w3 → frame w1 w3.
Proof.
  intros (D1 & C1 & F1) (D2 & C2 & F2). repeat split.
  - congruence.
  - auto.
  - by etrans.
Qed.

Lemma suffix_tail (fs : list Fault) : tail fs `suffix_of` fs.
Proof. destruct fs; [done|]. simpl. by apply suffix_cons_r. Qed.

Lemma frame_pop (w : World) : frame w (pop w).
Proof. repeat split; [done|]. apply suffix_tail. Qed.

Lemma no_crash_suffix (fs fs' : list Fault) :
  fs' `suffix_of` fs → no_crash fs → no_crash fs'.
Proof. intros [k ->] H. by apply Forall_app in H as [_ H]. Qed.

Lemma frame_no_crash (w w' : World) :
  frame w w' → no_crash (faults w) → no_crash (faults w').
Proof. intros (_ & _ & F). by apply no_crash_suffix. Qed.

Lemma same_db_refl (w : World) : same_db w w.
Proof. by split. Qed.

Lemma same_db_trans (w1 w2 w3 : World) : same_db w1 w2 → same_db w2 w3 → same_db w1 w3.
Proof. intros [D1 T1] [D2 T2]. split; congruence. Qed.

Lemma same_db_view (w w' : World) : same_db w w' → view w' = view w.
Proof. intros [D T]. unfold view. by rewrite D, T. Qed.

Lemma wrote_view (d : Database) (w w' : World) : wrote d w w' → view w' = d.
Proof.
  intros [D T]. unfold view. rewrite D, T. apply (view_set_view d w).
Qed.


Lemma next_fault_crash (w : World) :
  (next_fault w).1 = Crash → ¬ no_crash (faults w).
Proof.
  unfold next_fault. simpl. destruct (faults w) as [|f fs]; [done|].
  intros -> H. by inversion H.
Qed.

Lemma getDatabaseConnection_cases (w : World) (o : Outcome ()) (w' : World) :
  getDatabaseConnection w = (o, w') →
  frame w w' ∧ same_db w w'
  ∧ (o = Returned () → cachedConnection w' = true)
  ∧ (o = Halted → ¬ no_crash (faults w)).
Proof.
  unfold getDatabaseConnection, try_catch, open, bind, log_error, emit, throw.
  destruct (cachedConnection w) eqn:Hc.
  { intros [= <- <-]. split; [apply frame_refl|]. by repeat split. }
  pose proof (next_fault_crash w) as Hcr. pose proof (frame_pop w) as Hfr.
  unfold next_fault in *. simpl in Hcr.
  destruct Hfr as (HD & HC & HF).
  destruct (match faults w with [] => Pass | f :: _ => f end);
    intros [= <- <-]; simpl; repeat split; simpl; auto; done.
Qed.

Lemma execute_data_cases (q : Sql) (w : World) (o : Outcome ResultRows) (w' : World) :
  is_data q = true → execute q w = (o, w') →
  frame w w'
  ∧ (o = Halted → ¬ no_crash (faults w))
  ∧ match o with
    | Returned r => ∃ d, apply_sql q (view w) = inr (d, r) ∧ wrote d w w'
    | _ => same_db w w'
    end.
Proof.
  intros Hd. unfold execute.
  pose proof (next_fault_crash w) as Hcr. pose proof (frame_pop w) as Hfr.
  unfold next_fault in *. simpl in Hcr.
  rewrite conn_execute_data, view_pop by done.
  destruct (match faults w with [] => Pass | f :: _ => f end).
  - destruct (apply_sql q (view w)) as [e|[d r]] eqn:E; intros [= <- <-].
    + split; [exact Hfr|]. by split.
    + split; [|split; [done|]].
      * destruct Hfr as (? & ? & ?).
        repeat split; by rewrite ?DEV_set_view, ?cached_set_view, ?faults_set_view.
      * exists d. split; [done|]. unfold wrote, set_view. simpl.
        by destruct (txn w).
  - intros [= <- <-]. split; [exact Hfr|]. by split.
  - intros [= <- <-]. split; [exact Hfr|]. split; [auto|done].
Qed.

(** Every use of [runSql] with a statement on the tables: when it returns,
    the statement took effect on the database in view; otherwise the
    database is as it was. *)
Lemma runSql_cases (q : Sql) (w : World) (o : Outcome ResultRows) (w' : World) :
  is_data q = true → runSql q w = (o, w') →
  frame w w'
  ∧ (o = Halted → ¬ no_crash (faults w))
  ∧ match o with
    | Returned r => ∃ d, apply_sql q (view w) = inr (d, r) ∧ wrote d w w'
    | _ => same_db w w'
    end.
Proof.
  intros Hd. unfold runSql, try_catch, bind.
  destruct (getDatabaseConnection w) as [o1 w1] eqn:E1.
  apply getDatabaseConnection_cases in E1 as (F1 & S1 & _ & H1).
  destruct o1 as [[]|e|].
  - destruct (execute q w1) as [o2 w2] eqn:E2.
    apply execute_data_cases in E2 as (F2 & H2 & P2); [|done].
    assert (Hh : o2 = Halted → ¬ no_crash (faults w)).
    { intros Ho Hn. apply (H2 Ho). by eapply frame_no_crash. }
    destruct o2 as [r|e|]; intros [= <- <-].
    + split; [by eapply frame_trans|]. split; [done|].
      destruct P2 as (d & Hq & [D T]).
      exists d. rewrite <- (same_db_view _ _ S1). split; [done|].
      destruct S1 as [D1 T1]. unfold wrote, set_view in *.
      rewrite D, T, T1. destruct (txn w) eqn:E; simpl; by rewrite ?D1, ?T1, ?E.
    + unfold log_error, emit, throw. simpl.
      split; [|split; [done|]].
      * eapply frame_trans; [exact F1|]. destruct F2 as (? & ? & ?). by repeat split.
      * eapply same_db_trans; [exact S1|]. destruct P2. by split.
    + split; [by eapply frame_trans|]. split; [done|].
      by eapply same_db_trans.
  - unfold log_error, emit, throw. simpl. intros [= <- <-].
    split; [|split; [done|]].
    + destruct F1 as (? & ? & ?). by repeat split.
    + destruct S1. by split.
  - intros [= <- <-]. split; [done|]. split; [auto|done].
Qed.

(** ** Computations that stay within the database in view *)

Section Evolves.
Context (R : relation Database) `{!Reflexive R, !Transitive R}.

Lemma evolves_same (w w' : World) :
  same_db w w' →
  match txn w with
  | None => txn w' = None ∧ R (disk w) (disk w')
  | Some d => disk w' = disk w ∧ ∃ d', txn w' = Some d' ∧ R d d'
  end.
Proof.
  intros [D T]. rewrite D, T. destruct (txn w); [|done].
  split; [done|]. by eexists.
Qed.

Lemma evolves_wrote (d : Database) (w w' : World) :
  R (view w) d → wrote d w w' →
  match txn w with
  | None => txn w' = None ∧ R (disk w) (disk w')
  | Some d => disk w' = disk w ∧ ∃ d', txn w' = Some d' ∧ R d d'
  end.
Proof.
  intros HR [D T]. rewrite D, T. unfold view, set_view in *.
  destruct (txn w) eqn:E; simpl; rewrite ?E; [|done].
  split; [done|]. by eexists.
Qed.

Lemma evolves_ret {A} (a : A) : evolves R (ret a).
Proof.
  intros w o w' [= <- <-]. split; [apply frame_refl|]. split; [done|].
  apply evolves_same, same_db_refl.
Qed.



Lemma evolves_step (w1 w2 w3 : World) :
  match txn w1 with
  | None => txn w2 = None ∧ R (disk w1) (disk w2)
  | Some d => disk w2 = disk w1 ∧ ∃ d', txn w2 = Some d' ∧ R d d'
  end →
  match txn w2 with
  | None => txn w3 = None ∧ R (disk w2) (disk w3)
  | Some d => disk w3 = disk w2 ∧ ∃ d', txn w3 = Some d' ∧ R d d'
  end →
  match txn w1 with
  | None => txn w3 = None ∧ R (disk w1) (disk w3)
  | Some d => disk w3 = disk w1 ∧ ∃ d', txn w3 = Some d' ∧ R d d'
  end.
Proof.
  destruct (txn w1) as [d1|].
  - intros [D (d2 & -> & R1)] [D' (d3 & T3 & R2)].
    split; [congruence|]. exists d3. split; [done|]. by etrans.
  - intros [-> R1] [T3 R2]. split; [done|]. by etrans.
Qed.

Lemma evolves_bind {A B} (m : M A) (k : A → M B) :
  evolves R m → (∀ a, evolves R (k a)) → evolves R (bind m k).
Proof.
  intros Hm Hk w o w'. unfold bind.
  destruct (m w) as [o1 w1] eqn:E1.
  destruct (Hm _ _ _ E1) as (F1 & H1 & S1).
  destruct o1 as [a|e|].
  - intros E2. destruct (Hk a _ _ _ E2) as (F2 & H2 & S2).
    split; [by eapply frame_trans|]. split.
    + intros Ho Hn. apply (H2 Ho). by eapply frame_no_crash.
    + by eapply evolves_step.
  - by intros [= <- <-].
  - intros [= <- <-]. split; [done|]. split; [auto|done].
Qed.


Lemma evolves_runSql (q : Sql) :
  is_data q = true →
  (∀ d d' r, apply_sql q d = inr (d', r) → R d d') →
  evolves R (runSql q).
Proof.
  intros Hd Hq w o w' E.
  apply runSql_cases in E as (F & H & P); [|done].
  split; [done|]. split; [done|].
  destruct o as [r|e|].
  - destruct P as (d & Hd' & W). eapply evolves_wrote; [|done]. by eapply Hq.
  - by apply evolves_same.
  - by apply evolves_same.
Qed.

End Evolves.

(** ** Transactions *)

Lemma execute_cases (q : Sql) (w : World) (o : Outcome ResultRows) (w' : World) :
  execute q w = (o, w') →
  (o = Halted → ¬ no_crash (faults w))
  ∧ match o with
    | Returned r => conn_execute q (pop w) = inr (w', r)
    | _ => w' = pop w
    end.
Proof.
  unfold execute. pose proof (next_fault_crash w) as Hcr.
  unfold next_fault in *. simpl in Hcr.
  destruct (match faults w with [] => Pass | f :: _ => f end).
  - destruct (conn_execute q (pop w)) as [e|[w2 r]]; by intros [= <- <-].
  - by intros [= <- <-].
  - intros [= <- <-]. auto.
Qed.

Lemma execute_begin_cases (w : World) (o : Outcome ResultRows) (w' : World) :
  execute Begin w = (o, w') →
  frame w w' ∧ disk w' = disk w
  ∧ (o = Halted → ¬ no_crash (faults w))
  ∧ match o with
    | Returned _ => txn w = None ∧ txn w' = Some (disk w)
    | _ => txn w' = txn w
    end.
Proof.
  intros E. apply execute_cases in E as [H P].
  pose proof (frame_pop w) as F.
  destruct o as [r|e|]; try (subst w'; split; [done|]; repeat split; by auto).
  simpl in P. destruct (txn w) eqn:T; [done|].
  injection P as <- <-. destruct F as (? & ? & ?). by repeat split.
Qed.

Lemma execute_commit_cases (w : World) (o : Outcome ResultRows) (w' : World) :
  execute Commit w = (o, w') →
  frame w w'
  ∧ (o = Halted → ¬ no_crash (faults w))
  ∧ match o with
    | Returned _ => txn w = Some (disk w') ∧ txn w' = None
    | _ => same_db w w'
    end.
Proof.
  intros E. apply execute_cases in E as [H P].
  pose proof (frame_pop w) as F.
  destruct o as [r|e|]; try (subst w'; split; [done|]; repeat split; by auto).
  simpl in P. destruct (txn w) eqn:T; [|done].
  injection P as <- <-. destruct F as (? & ? & ?). by repeat split.
Qed.

Lemma execute_rollback_cases (w : World) (o : Outcome ResultRows) (w' : World) :
  execute Rollback w = (o, w') →
  frame w w' ∧ disk w' = disk w
  ∧ (o = Halted → ¬ no_crash (faults w)).
Proof.
  intros E. apply execute_cases in E as [H P].
  pose proof (frame_pop w) as F.
  destruct o as [r|e|]; try (subst w'; split; [done|]; repeat split; by auto).
  simpl in P. destruct (txn w) eqn:T; [|done].
  injection P as <- <-. destruct F as (? & ? & ?). by repeat split.
Qed.

(** The [catch] of [runTransaction]: it never returns, and it leaves the
    committed database alone. *)
Lemma rollback_handler_cases {T} (err : Exn) (w : World) (o : Outcome T) (w' : World) :
  (try_catch (execute Rollback >> ret ()) (λ _, ret ()) >>
   log_error "Transaction failed" (ErrArg err) >>
   throw (DBError "Database transaction failed." None err)) w = (o, w') →
  frame w w' ∧ disk w' = disk w
  ∧ (o = Halted → ¬ no_crash (faults w))
  ∧ (∀ r, o ≠ Returned r).
Proof.
  unfold bind at 1. unfold try_catch, bind at 1.
  destruct (execute Rollback w) as [o1 w1] eqn:E1.
  apply execute_rollback_cases in E1 as (F1 & D1 & H1).
  unfold bind, log_error, emit, throw, ret.
  destruct o1 as [r|e|]; intros [= <- <-]; simpl.
  - split; [|by repeat split]. destruct F1 as (? & ? & ?). by repeat split.
  - split; [|by repeat split]. destruct F1 as (? & ? & ?). by repeat split.
  - split; [done|]. split; [done|]. split; [auto|done].
Qed.

(** [runTransaction]: when it returns, the work ran to its end inside a
    transaction opened on the committed database, and what it left in view
    is now committed; in every other case the committed database is what
    it was. *)
Lemma runTransaction_cases {T} (R : relation Database) (doWork : M T)
    (w : World) (o : Outcome T) (w' : World) :
  evolves R doWork →
  runTransaction doWork w = (o, w') →
  frame w w'
  ∧ (o = Halted → ¬ no_crash (faults w))
  ∧ match o with
    | Returned r =>
        txn w = None ∧ txn w' = None ∧ R (disk w) (disk w')
        ∧ ∃ w1 w2, frame w w1 ∧ cachedConnection w1 = true
            ∧ disk w1 = disk w ∧ txn w1 = Some (disk w)
            ∧ doWork w1 = (Returned r, w2) ∧ txn w2 = Some (disk w')
    | _ => disk w' = disk w
    end.
Proof.
  intros Hwork. unfold runTransaction. unfold bind at 1.
  destruct (getDatabaseConnection w) as [o0 w0] eqn:E0.
  apply getDatabaseConnection_cases in E0 as (F0 & [D0 T0] & C0 & H0).
  destruct o0 as [[]|e|]; [|by intros [= <- <-]|intros [= <- <-]; by auto].
  specialize (C0 eq_refl).
  unfold try_catch. unfold bind at 1.
  destruct (execute Begin w0) as [o1 w1] eqn:E1.
  apply execute_begin_cases in E1 as (F1 & D1 & H1 & P1).
  assert (F01 : frame w w1) by by eapply frame_trans.
  assert (N1 : o1 = Halted → ¬ no_crash (faults w)).
  { intros Ho Hn. apply (H1 Ho). by eapply frame_no_crash. }
  destruct o1 as [r1|e1|]; cycle 1.
  { intros E. apply rollback_handler_cases in E as (F & D & H & N).
    split; [by eapply frame_trans|]. split.
    - intros Ho Hn. apply (H Ho). by eapply frame_no_crash.
    - destruct o as [r|e|]; [by destruct (N r)|congruence..]. }
  { intros [= <- <-]. split; [done|]. split; [auto|]. congruence. }
  destruct P1 as [T1 T1']. unfold bind at 1.
  destruct (doWork w1) as [o2 w2] eqn:E2.
  destruct (Hwork _ _ _ E2) as (F2 & H2 & S2).
  rewrite T1' in S2. destruct S2 as (D2 & d2 & T2 & R2).
  assert (F02 : frame w w2) by by eapply frame_trans.
  assert (N2 : o2 = Halted → ¬ no_crash (faults w)).
  { intros Ho Hn. apply (H2 Ho). by eapply frame_no_crash. }
  destruct o2 as [r2|e2|]; cycle 1.
  { intros E. apply rollback_handler_cases in E as (F & D & H & N).
    split; [by eapply frame_trans|]. split.
    - intros Ho Hn. apply (H Ho). by eapply frame_no_crash.
    - destruct o as [r|e|]; [by destruct (N r)|congruence..]. }
  { intros [= <- <-]. split; [done|]. split; [auto|]. congruence. }
  unfold bind at 1.
  destruct (execute Commit w2) as [o3 w3] eqn:E3.
  apply execute_commit_cases in E3 as (F3 & H3 & P3).
  assert (F03 : frame w w3) by by eapply frame_trans.
  assert (N3 : o3 = Halted → ¬ no_crash (faults w)).
  { intros Ho Hn. apply (H3 Ho). by eapply frame_no_crash. }
  destruct o3 as [r3|e3|]; cycle 1.
  { intros E. apply rollback_handler_cases in E as (F & D & H & N).
    destruct P3 as [D3 T3].
    split; [by eapply frame_trans|]. split.
    - intros Ho Hn. apply (H Ho). by eapply frame_no_crash.
    - destruct o as [r|e|]; [by destruct (N r)|congruence..]. }
  { intros [= <- <-]. destruct P3 as [D3 T3].
    split; [done|]. split; [auto|]. congruence. }
  intros [= <- <-]. destruct P3 as [T3 T3'].
  assert (d2 = disk w3) as -> by congruence.
  split; [done|]. split; [done|].
  split; [congruence|]. split; [done|]. split; [by rewrite D0 in R2|].
  exists w1, w2. destruct F1 as (_ & C1 & _).
  split; [done|]. split; [auto|]. split; [congruence|]. split; [congruence|].
  by split.
Qed.

(** ** Invariants of the database *)

Section Keeps.
Context (I : Database → Prop).

Lemma holds_same (w w' : World) : same_db w w' → holds I w → holds I w'.
Proof. intros [D T] [H1 H2]. split; [by rewrite D|]. intros d. rewrite T. auto. Qed.

Lemma holds_view (w : World) : holds I w → I (view w).
Proof. intros [H1 H2]. unfold view. destruct (txn w); auto. Qed.

Lemma keeps_ret {A} (a : A) : keeps I (ret a).
Proof. by intros w o w' [= <- <-]. Qed.

Lemma keeps_throw {A} (e : Exn) : keeps I (@throw A e).
Proof. by intros w o w' [= <- <-]. Qed.

Lemma keeps_emit (l : LogLine) : keeps I (emit l).
Proof. by intros w o w' [= <- <-]. Qed.

Lemma keeps_log_error msg a : keeps I (log_error msg a).
Proof. apply keeps_emit. Qed.

Lemma keeps_log_info msg a : keeps I (log_info msg a).
Proof.
  intros w o w'. unfold log_info. destruct (DEV w); [apply keeps_emit|].
  apply (keeps_ret ()).
Qed.

Lemma keeps_log_warn msg a : keeps I (log_warn msg a).
Proof.
  intros w o w'. unfold log_warn. destruct (DEV w); [apply keeps_emit|].
  apply (keeps_ret ()).
Qed.

Lemma keeps_bind {A B} (m : M A) (k : A → M B) :
  keeps I m → (∀ a, keeps I (k a)) → keeps I (bind m k).
Proof.
  intros Hm Hk w o w'. unfold bind.
  destruct (m w) as [o1 w1] eqn:E1. specialize (Hm _ _ _ E1).
  destruct o1 as [a|e|].
  - intros E2 H. eapply Hk; eauto.
  - intros [= <- <-]. done.
  - intros [= <- <-]. done.
Qed.

Lemma keeps_try_catch {A} (m : M A) (h : Exn → M A) :
  keeps I m → (∀ e, keeps I (h e)) → keeps I (try_catch m h).
Proof.
  intros Hm Hh w o w'. unfold try_catch.
  destruct (m w) as [o1 w1] eqn:E1. specialize (Hm _ _ _ E1).
  destruct o1 as [a|e|].
  - intros [= <- <-]. done.
  - intros E2 H. eapply Hh; eauto.
  - intros [= <- <-]. done.
Qed.

Lemma keeps_getDatabaseConnection : keeps I getDatabaseConnection.
Proof.
  intros w o w' E. apply getDatabaseConnection_cases in E as (_ & S & _).
  by apply holds_same.
Qed.

Lemma keeps_execute (q : Sql) :
  (∀ d d' r, apply_sql q d = inr (d', r) → I d → I d') →
  (q = PragmaJournalModeWal → ∀ d, I d → I (set_journal true d)) →
  keeps I (execute q).
Proof.
  intros Hq Hj w o w' E [H1 H2]. apply execute_cases in E as [_ P].
  destruct o as [r|e|]; try (by subst w').
  assert (Hv : I (view w)) by by apply holds_view.
  assert (Hdata : is_data q = true → holds I w').
  { intros Hd. rewrite conn_execute_data, view_pop in P by done.
    destruct (apply_sql q (view w)) as [e|[d r']] eqn:E; [done|].
    injection P as <- <-. unfold set_view. simpl.
    specialize (Hq _ _ _ E Hv).
    destruct (txn w) eqn:T; split; simpl; try done.
    - by intros ? [= <-].
    - intros ?. by rewrite T. }
  destruct q; try (by apply Hdata); simpl in P;
    destruct (txn w) as [d0|] eqn:T; try done; injection P as <- <-;
    split; simpl; try done; rewrite ?T; auto.
  by intros ? [= <-].
Qed.

Lemma keeps_runSql (q : Sql) :
  (∀ d d' r, apply_sql q d = inr (d', r) → I d → I d') →
  (q = PragmaJournalModeWal → ∀ d, I d → I (set_journal true d)) →
  keeps I (runSql q).
Proof.
  intros Hq Hj. unfold runSql.
  apply keeps_try_catch.
  - apply keeps_bind; [apply keeps_getDatabaseConnection|].
    intros _. by apply keeps_execute.
  - intros e. apply keeps_bind; [apply keeps_log_error|].
    intros _. apply keeps_throw.
Qed.

Lemma keeps_control (q : Sql) : is_data q = false → q ≠ PragmaJournalModeWal →
  keeps I (execute q).
Proof.
  intros Hd Hj. apply keeps_execute; [|done].
  destruct q; try done; by intros d d' r [= <- <-].
Qed.

Lemma keeps_runTransaction {T} (doWork : M T) :
  keeps I doWork → keeps I (runTransaction doWork).
Proof.
  intros Hwork. unfold runTransaction.
  apply keeps_bind; [apply keeps_getDatabaseConnection|]. intros _.
  apply keeps_try_catch.
  - apply keeps_bind; [by apply keeps_control|]. intros _.
    apply keeps_bind; [done|]. intros r.
    apply keeps_bind; [by apply keeps_control|]. intros _.
    apply keeps_ret.
  - intros e. apply keeps_bind.
    + apply keeps_try_catch.
      * apply keeps_bind; [by apply keeps_control|]. intros _. apply keeps_ret.
      * intros _. apply keeps_ret.
    + intros _. apply keeps_bind; [apply keeps_log_error|].
      intros _. apply keeps_throw.
Qed.

End Keeps.

#[export] Instance same_meta_hadith_refl : Reflexive same_meta_hadith.
Proof. by intros d. Qed.

#[export] Instance same_meta_hadith_trans : Transitive same_meta_hadith.
Proof. intros d1 d2 d3 [M1 H1] [M2 H2]. split; congruence. Qed.

#[export] Instance any_change_refl : Reflexive any_change.
Proof. by intros d. Qed.

#[export] Instance any_change_trans : Transitive any_change.
Proof. by intros d1 d2 d3. Qed.


Lemma log_info_done (w w' : World) (msg : string) (a : LogArgs) (o : Outcome ()) :
  log_info msg a w = (o, w') → disk w' = disk w ∧ txn w' = txn w.
Proof. unfold log_info, emit. by destruct (DEV w); intros [= <- <-]. Qed.

(** ** Reading the outcome of a sequence *)

Lemma bind_returned {A B} (m : M A) (k : A → M B) (w w' : World) (b : B) :
  bind m k w = (Returned b, w') →
  ∃ a w1, m w = (Returned a, w1) ∧ k a w1 = (Returned b, w').
Proof.
  unfold bind. destruct (m w) as [[a|e|] w1]; [eauto|done..].
Qed.

End ClientFacts.

(** * Properties of hadith.ts: the seeding decision *)

Module SeedFacts.
Import Text Engine Client Hadith Notions ClientFacts.

(** Bring an explicit world back to a record after a step. *)
Ltac step_world :=
  unfold set_view, view, pop, set_txn, set_disk, set_faults, set_console,
    set_cached, ret; simpl.

Lemma set_view_view (w : World) : set_view (view w) w = w.
Proof. destruct w as [? ? ? [d|] ? ? ?]; reflexivity. Qed.

Lemma passing_tail (n : nat) (fs : list Fault) : passing (S n) fs → passing n (tail fs).
Proof. intros H. by apply passing_S in H as [_ H]. Qed.

(** A SELECT that goes through leaves the world as it was, one fault
    consumed. *)
Lemma runSql_select (q : Sql) (w : World) (r : ResultRows) :
  cachedConnection w = true → passing 1 (faults w) → is_data q = true →
  apply_sql q (view w) = inr (view w, r) →
  runSql q w = (Returned r, pop w).
Proof.
  intros Hc Hp Hd Hq.
  rewrite (runSql_data_returns q w (view w) r) by done.
  by rewrite <- (view_pop w), set_view_view.
Qed.

Lemma select_seeded (d : Database) (m : gmap str str) :
  meta d = Some m →
  apply_sql SelectMetaSeeded d =
    inr (d, Values (match m !! seeded_key with Some v => [v] | None => [] end)).
Proof. intros H. simpl. by rewrite H. Qed.

Lemma select_count (d : Database) (t : HadithTable) :
  hadith d = Some t →
  apply_sql SelectCountHadith d = inr (d, Count (N.of_nat (List.length (rows t)))).
Proof. intros H. simpl. by rewrite H. Qed.


Lemma flag_test (m : gmap str str) :
  bool_decide
    (first_value (Values (match m !! seeded_key with Some v => [v] | None => [] end))
     = Some one) = bool_decide (m !! seeded_key = Some one).
Proof.
  apply bool_decide_ext. destruct (m !! seeded_key); simpl; [|done].
  split; congruence.
Qed.

Lemma count_test (t : HadithTable) :
  (0 <? first_count (Count (N.of_nat (List.length (rows t)))))
  = negb (bool_decide (rows t = [])).
Proof.
  simpl. destruct (rows t) as [|r rs]; [done|].
  rewrite bool_decide_false by done. rewrite length_cons.
  apply N.ltb_lt. lia.
Qed.

(** With the flag unset and the table empty, the call is the import. *)
Lemma seed_takes_fresh_path (seedData : list SeedItem) (w : World)
    (m : gmap str str) (t : HadithTable) :
  cachedConnection w = true →
  meta (view w) = Some m → hadith (view w) = Some t →
  passing 2 (faults w) →
  m !! seeded_key ≠ Some one → rows t = [] →
  seedDatabaseIfEmpty seedData w = fresh_import seedData (pop (pop w)).
Proof.
  intros Hc Hm Ht Hp Hflag Hrows.
  assert (Hp1 : passing 1 (faults w)) by (eapply passing_le; [|exact Hp]; lia).
  assert (Hp2 : passing 1 (faults (pop w))) by by apply passing_tail.
  unfold seedDatabaseIfEmpty. unfold bind at 1.
  rewrite (runSql_select SelectMetaSeeded w _ Hc Hp1 eq_refl (select_seeded _ _ Hm)).
  cbv zeta. rewrite flag_test, bool_decide_false by done.
  unfold bind at 1.
  rewrite (runSql_select SelectCountHadith (pop w) _ Hc Hp2 eq_refl (select_count _ _ Ht)).
  by rewrite count_test, bool_decide_true.
Qed.


(** ** The import, whatever the environment does *)







(** ** The import, statement by statement *)

Lemma set_rows_same (d : Database) (t : HadithTable) :
  hadith d = Some t → set_hadith (Some (set_rows (rows t) t)) d = d.
Proof. destruct d, t. simpl. by intros ->. Qed.

Lemma survivors_length (items : list SeedItem) (fs : list Fault) :
  (List.length (survivors items fs) ≤ List.length items)%nat.
Proof.
  revert fs. induction items as [|item items IH]; intros fs; simpl; [lia|].
  destruct (isValidSeedItem item).
  - destruct fs as [|[] fs']; simpl;
      [specialize (IH []) | specialize (IH fs')..]; lia.
  - specialize (IH fs). lia.
Qed.

Lemma insert_or_replace (d : Database) (t : HadithTable) (r : HadithRow) :
  hadith d = Some t → has_uid t = true → idx_hadith_uid t = true →
  apply_sql (InsertOrReplaceHadith r) d =
    inr (set_hadith (Some (set_rows (replace_into r (rows t)) t)) d, NoRows).
Proof. intros Ht Hu Hi. simpl. by rewrite Ht, Hu, Hi. Qed.

Lemma runSql_mk (q : Sql) (dev : bool) (dsk : Database) (tx : option Database)
    (fk : bool) (fs : list Fault) (con : list LogLine)
    (d : Database) (r : ResultRows) :
  passing 1 fs → is_data q = true →
  apply_sql q (view (mkWorld dev true dsk tx fk fs con)) = inr (d, r) →
  runSql q (mkWorld dev true dsk tx fk fs con) =
    (Returned r, set_view d (mkWorld dev true dsk tx fk (tail fs) con)).
Proof. intros Hp Hd Hq. by apply runSql_data_returns. Qed.

Lemma runSql_mk_raise (q : Sql) (dev : bool) (dsk : Database)
    (tx : option Database) (fk : bool) (fs : list Fault) (con : list LogLine) :
  runSql q (mkWorld dev true dsk tx fk (Raise :: fs) con) =
    (Thrown (DBError "SQL execution failed." (Some q) (EngineFailure IoFailure)),
     mkWorld dev true dsk tx fk fs
       (con ++ [mkLog ERROR "SQL failed" (SqlArg q (EngineFailure IoFailure))])).
Proof. by rewrite (runSql_raises q _ fs). Qed.

Lemma passing_nil (n : nat) : passing n [].
Proof. unfold passing. by rewrite take_nil. Qed.

Lemma passing_one_pass (fs : list Fault) : passing 1 (Pass :: fs).
Proof. unfold passing. simpl. rewrite take_0. by repeat constructor. Qed.

(** The loop inside the transaction, when the only faults are failed
    INSERTs: it returns, having written the rows of the survivors and
    logged the others. *)
Lemma seed_items_run (items : list SeedItem) :
  ∀ (fs : list Fault) (inserted skipped : nat) (dev : bool) (dsk d : Database)
    (t : HadithTable) (fk : bool) (con : list LogLine),
  hadith d = Some t → has_uid t = true → idx_hadith_uid t = true →
  no_crash (take (List.length (valid_items items)) fs) →
  seed_items items inserted skipped (mkWorld dev true dsk (Some d) fk fs con) =
    (Returned
       ((inserted + List.length (survivors items fs))%nat,
        (skipped + (List.length items - List.length (survivors items fs)))%nat),
     mkWorld dev true dsk
       (Some (set_hadith
                (Some (set_rows (replace_all_into (rows t) (survivors items fs)) t)) d))
       fk (drop (List.length (valid_items items)) fs) (con ++ row_logs dev items fs)).
Proof.
  induction items as [|item items IH];
    intros fs inserted skipped dev dsk d t fk con Ht Hu Hi Hnc.
  { simpl. unfold ret. rewrite set_rows_same, app_nil_r by done.
    do 2 f_equal; f_equal; lia. }
  pose proof (survivors_length items) as Hlen.
  simpl. unfold valid_items in *. simpl in Hnc.
  destruct (isValidSeedItem item) eqn:Hv; simpl.
  2:{ rewrite (IH fs _ _ _ _ _ t) by done. specialize (Hlen fs).
      do 2 f_equal. f_equal. lia. }
  unfold bind at 1. unfold try_catch. unfold bind at 1.
  destruct fs as [|[] fs]; simpl in Hnc.
  - erewrite runSql_mk;
      [|apply passing_nil|done|by apply insert_or_replace].
    + step_world.
      rewrite (IH [] _ _ _ _ _ (set_rows (replace_into (row_of_item item) (rows t)) t))
        by (try done; by rewrite take_nil).
      specialize (Hlen []). rewrite drop_nil. simpl.
      do 2 f_equal. f_equal; lia.
  - erewrite runSql_mk;
      [|apply passing_one_pass|done|by apply insert_or_replace].
    + step_world.
      rewrite (IH fs _ _ _ _ _ (set_rows (replace_into (row_of_item item) (rows t)) t))
        by (try done; by inversion Hnc).
      specialize (Hlen fs). simpl.
      do 2 f_equal. f_equal; lia.
  - rewrite runSql_mk_raise. simpl.
    unfold bind at 1. unfold log_warn, emit, ret. simpl.
    specialize (Hlen fs).
    destruct dev; step_world.
    + rewrite (IH fs _ _ _ _ _ t) by (try done; by inversion Hnc).
      rewrite <- !app_assoc. simpl. do 2 f_equal. f_equal; lia.
    + rewrite (IH fs _ _ _ _ _ t) by (try done; by inversion Hnc).
      rewrite <- !app_assoc. simpl. do 2 f_equal. f_equal; lia.
  - inversion Hnc as [|? ? Hc _]. done.
Qed.

Lemma set_collections_same (d : Database) (c : gmap str CollectionRow) :
  collections d = Some c → set_collections (Some c) d = d.
Proof. destruct d. simpl. by intros ->. Qed.

Lemma upsert_run (col : str) (dev : bool) (dsk : Database)
    (c : gmap str CollectionRow) (fk : bool) (fs : list Fault) (con : list LogLine) :
  collections dsk = Some c →
  upsertCollection col None None None
    (mkWorld dev true dsk None fk (Pass :: fs) con) =
  (Returned (),
   mkWorld dev true
     (set_collections
        (Some (insert_or_ignore_collection col (mkCollection col None None) c)) dsk)
     None fk fs con).
Proof.
  intros Hc. unfold upsertCollection. unfold bind at 1.
  erewrite runSql_mk;
    [|apply passing_one_pass|done|unfold view; simpl; by rewrite Hc].
  step_world. reflexivity.
Qed.

Lemma upserts_run (cols : list str) :
  ∀ (dev : bool) (dsk : Database) (c : gmap str CollectionRow) (fk : bool)
    (rest : list Fault) (con : list LogLine),
  collections dsk = Some c →
  for_of cols (λ col, upsertCollection col None None None)
    (mkWorld dev true dsk None fk (replicate (List.length cols) Pass ++ rest) con) =
  (Returned (),
   mkWorld dev true (set_collections (Some (register_collections cols c)) dsk)
     None fk rest con).
Proof.
  induction cols as [|col cols IH]; intros dev dsk c fk rest con Hc.
  { simpl. unfold ret. by rewrite set_collections_same. }
  simpl. unfold bind at 1. rewrite (upsert_run col _ _ c) by done.
  by rewrite (IH dev _ (insert_or_ignore_collection col (mkCollection col None None) c)).
Qed.

(** A transaction whose work returns and whose BEGIN and COMMIT go
    through. *)
Lemma runTransaction_run {T} (doWork : M T) (dev : bool) (dsk : Database)
    (fk : bool) (fs : list Fault) (con : list LogLine)
    (r : T) (d : Database) (fs' : list Fault) (con' : list LogLine) :
  passing 1 fs →
  doWork (mkWorld dev true dsk (Some dsk) fk (tail fs) con) =
    (Returned r, mkWorld dev true dsk (Some d) fk fs' con') →
  passing 1 fs' →
  runTransaction doWork (mkWorld dev true dsk None fk fs con) =
    (Returned r, mkWorld dev true d None fk (tail fs') con').
Proof.
  intros Hp Hwork Hp'.
  apply passing_S in Hp as [Hf _]. apply passing_S in Hp' as [Hf' _].
  unfold runTransaction, bind, try_catch, getDatabaseConnection, execute, next_fault.
  simpl. rewrite Hf. step_world. rewrite Hwork. simpl. rewrite Hf'. reflexivity.
Qed.

Lemma tail_drop_S {A} (n : nat) (l : list A) : tail (drop n l) = drop (S n) l.
Proof.
  revert l. induction n as [|n IH]; intros [|x l]; simpl; done.
Qed.

(** The whole import when the only faults are failed INSERTs. *)
Lemma fresh_import_run (seedData : list SeedItem) (dev : bool) (dsk : Database)
    (m : gmap str str) (c : gmap str CollectionRow) (t : HadithTable)
    (fk : bool) (fs : list Fault) (con : list LogLine) :
  meta dsk = Some m → collections dsk = Some c → hadith dsk = Some t →
  has_uid t = true → idx_hadith_uid t = true →
  no_crash (take (List.length (valid_items seedData)) fs) →
  passing 2 (drop (List.length (valid_items seedData)) fs) →
  fresh_import seedData
    (mkWorld dev true dsk None fk
       (replicate (List.length (uniqueCollections seedData)) Pass ++ Pass :: fs) con) =
  (Returned (),
   mkWorld dev true (imported seedData fs m c t dsk) None fk
     (drop (2 + List.length (valid_items seedData)) fs)
     (con ++ row_logs dev seedData fs
          ++ (if dev then [completed_line seedData fs] else []))).
Proof.
  intros Hm Hc Ht Hu Hi Hnc Hp.
  unfold fresh_import. unfold bind at 1.
  rewrite (upserts_run _ _ _ c) by done.
  unfold bind at 1. unfold seed_transaction.
  set (d1 := set_collections
               (Some (register_collections (uniqueCollections seedData) c)) dsk).
  erewrite (runTransaction_run _ dev d1 fk (Pass :: fs) con); cycle 1.
  - apply passing_one_pass.
  - unfold bind at 1. simpl tail.
    rewrite (seed_items_run seedData fs 0 0 dev d1 d1 t) by done.
    unfold bind at 1.
    erewrite runSql_mk;
      [|by eapply (passing_le 1 2); [lia|]|done|unfold view; simpl; by rewrite Hm].
    step_world. reflexivity.
  - by apply passing_tail in Hp.
  - unfold log_info, emit. simpl.
    rewrite !tail_drop_S.
    destruct dev; step_world; rewrite <- ?app_assoc, ?app_nil_r; reflexivity.
Qed.




(** ** The uid of the rows *)

Lemma row_of_item_uid (item : SeedItem) : uid_derived (row_of_item item).
Proof. reflexivity. Qed.

Lemma NoDup_map_filter {A B} (f : A → B) (p : A → bool) (l : list A) :
  NoDup (map f l) → NoDup (map f (List.filter p l)).
Proof.
  induction l as [|a l IH]; simpl; [done|].
  intros H. apply NoDup_cons in H as [Ha Hl].
  destruct (p a); simpl; [|by apply IH].
  apply NoDup_cons. split; [|by apply IH].
  intros Hin. apply Ha.
  apply list_elem_of_fmap in Hin as (x & -> & Hx).
  apply list_elem_of_fmap. exists x. split; [done|].
  apply list_elem_of_In. apply list_elem_of_In in Hx.
  by apply filter_In in Hx as [Hx _].
Qed.

Lemma replace_into_ok (r : HadithRow) (rs : list HadithRow) :
  uid_derived r → Forall uid_derived rs → NoDup (map h_uid rs) →
  Forall uid_derived (replace_into r rs) ∧ NoDup (map h_uid (replace_into r rs)).
Proof.
  intros Hr Hrs Hnd. unfold replace_into. split.
  - apply Forall_app. split; [|by repeat constructor].
    apply List.Forall_forall. intros x Hx. apply filter_In in Hx as [Hx _].
    by eapply List.Forall_forall in Hrs.
  - rewrite map_app. apply NoDup_app. split; [by apply NoDup_map_filter|].
    split; [|simpl; apply NoDup_singleton].
    intros u Hu Hu'. simpl in Hu'. apply list_elem_of_singleton in Hu'. subst u.
    apply list_elem_of_fmap in Hu as (x & Hx & Hin).
    apply list_elem_of_In, filter_In in Hin as [Hin Hneq].
    eapply List.Forall_forall in Hrs; [|exact Hin].
    unfold same_uid in Hneq. rewrite Hr, Hrs in Hneq.
    apply negb_true_iff, bool_decide_eq_false in Hneq.
    rewrite Hr, Hrs in Hx. by injection Hx.
Qed.

Lemma hadith_ok_unchanged (d d' : Database) :
  hadith d' = hadith d → hadith_ok d → hadith_ok d'.
Proof. unfold hadith_ok. by intros ->. Qed.

Lemma hadith_ok_insert (r : HadithRow) (d d' : Database) (res : ResultRows) :
  uid_derived r →
  apply_sql (InsertOrReplaceHadith r) d = inr (d', res) →
  hadith_ok d → hadith_ok d'.
Proof.
  intros Hr. unfold hadith_ok. simpl.
  destruct (hadith d) as [t|]; [|done].
  destruct (has_uid t); [|done]. simpl.
  intros [= <- <-] (Hi & Hd & Hn). simpl. rewrite Hi.
  split; [done|]. by apply replace_into_ok.
Qed.

Lemma keeps_seed_items (items : list SeedItem) :
  ∀ inserted skipped, keeps hadith_ok (seed_items items inserted skipped).
Proof.
  induction items as [|item items IH]; intros inserted skipped; simpl.
  { apply keeps_ret. }
  destruct (isValidSeedItem item); simpl; [|apply IH].
  apply keeps_bind.
  - apply keeps_try_catch.
    + apply keeps_bind; [|intros _; apply keeps_ret].
      apply keeps_runSql; [|done].
      intros d d' r. apply hadith_ok_insert, row_of_item_uid.
    + intros e. apply keeps_bind; [apply keeps_log_warn|].
      intros _. apply keeps_ret.
  - intros []; apply IH.
Qed.

Lemma keeps_for_of (I : Database → Prop) {A} (l : list A) (body : A → M ()) :
  (∀ x, keeps I (body x)) → keeps I (for_of l body).
Proof.
  intros Hb. induction l as [|x l IH]; simpl; [apply keeps_ret|].
  apply keeps_bind; [apply Hb|]. intros _. apply IH.
Qed.

Lemma keeps_set_seeded : keeps hadith_ok (runSql InsertOrReplaceMetaSeeded).
Proof.
  apply keeps_runSql; [|done]. intros d d' r. simpl.
  destruct (meta d); [|done]. intros [= <- <-]. by apply hadith_ok_unchanged.
Qed.

Lemma seed_keeps_hadith_ok (seedData : list SeedItem) :
  keeps hadith_ok (seedDatabaseIfEmpty seedData).
Proof.
  unfold seedDatabaseIfEmpty.
  apply keeps_bind.
  { apply keeps_runSql; [|done]. intros d d' r. simpl.
    destruct (meta d); [|done]. by intros [= <- <-]. }
  intros res. cbv zeta.
  destruct (bool_decide _); [apply keeps_log_info|].
  apply keeps_bind.
  { apply keeps_runSql; [|done]. intros d d' r. simpl.
    destruct (hadith d); [|done]. by intros [= <- <-]. }
  intros res'.
  destruct (0 <? _).
  { apply keeps_bind; [apply keeps_set_seeded|]. intros _. apply keeps_log_info. }
  unfold fresh_import. apply keeps_bind.
  { apply keeps_for_of. intros col. unfold upsertCollection.
    apply keeps_bind; [|intros _; apply keeps_ret].
    apply keeps_runSql; [|done]. intros d d' r. simpl.
    destruct (collections d); [|done]. intros [= <- <-].
    by apply hadith_ok_unchanged. }
  intros _. apply keeps_bind; [|intros counts; apply keeps_log_info].
  apply keeps_runTransaction.
  apply keeps_bind; [apply keeps_seed_items|]. intros counts.
  apply keeps_bind; [apply keeps_set_seeded|]. intros _. apply keeps_ret.
Qed.

Lemma set_from_pair (c : str) : set_from [c; c] = [c].
Proof. unfold set_from. simpl. rewrite bool_decide_true; [done|]. set_solver. Qed.

End SeedFacts.

(** * Properties of migrate.ts *)

Module MigrateFacts.
Import Engine Client Migrate Notions ClientFacts SeedFacts.

(** ** A migrated database is a fixed point of every step *)


Lemma insert_or_ignore_keeps (k k' : str) (v : CollectionRow) (c : gmap str CollectionRow) :
  is_Some (c !! k') → is_Some (insert_or_ignore_collection k v c !! k').
Proof.
  intros H. unfold insert_or_ignore_collection.
  destruct (c !! k) eqn:E; [done|].
  destruct (decide (k = k')) as [->|Hne].
  - rewrite lookup_insert_eq. by eexists.
  - by rewrite lookup_insert_ne.
Qed.

Lemma insert_or_ignore_has (k : str) (v : CollectionRow) (c : gmap str CollectionRow) :
  is_Some (insert_or_ignore_collection k v c !! k).
Proof.
  unfold insert_or_ignore_collection.
  destruct (c !! k) eqn:E; [by rewrite E|].
  rewrite lookup_insert_eq. by eexists.
Qed.

Lemma fold_keeps (rs : list HadithRow) :
  ∀ (c : gmap str CollectionRow) (k : str),
  is_Some (c !! k) →
  is_Some (foldl (λ m r, insert_or_ignore_collection (h_collection r)
                           (mkCollection (h_collection r) None None) m) c rs !! k).
Proof.
  induction rs as [|r rs IH]; intros c k H; simpl; [done|].
  apply IH. by apply insert_or_ignore_keeps.
Qed.

(** The backfill of [collections] registers the collection of every row. *)
Lemma fold_registers (rs : list HadithRow) :
  ∀ c : gmap str CollectionRow,
  Forall (λ r, is_Some
     (foldl (λ m r, insert_or_ignore_collection (h_collection r)
                      (mkCollection (h_collection r) None None) m) c rs
      !! h_collection r)) rs.
Proof.
  induction rs as [|r rs IH]; intros c; simpl; constructor.
  - apply fold_keeps, insert_or_ignore_has.
  - apply IH.
Qed.




(** ** Running the migration on a migrated database *)

Section Rerun.
Context (d0 : Database) (Hmig : migrated d0).






End Rerun.

(** ** What a run of the migration leaves *)

Lemma runSql_returned_view (q : Sql) (w : World) (r : ResultRows) (w' : World) :
  is_data q = true → runSql q w = (Returned r, w') →
  apply_sql q (view w) = inr (view w', r).
Proof.
  intros Hd E. apply runSql_cases in E as (_ & _ & d & Q & W); [|done].
  by rewrite (wrote_view _ _ _ W).
Qed.

Lemma backfill_clear_derived (r : HadithRow) : uid_derived (backfill_uid (clear_uid r)).
Proof. reflexivity. Qed.

Lemma uids_derived_nodup (rs : list HadithRow) :
  Forall uid_derived rs → NoDup (uids rs) → NoDup (map h_uid rs).
Proof.
  unfold uids. induction 1 as [|r rs Hr Hrs IH]; simpl; [constructor|].
  rewrite Hr. simpl. intros Hn. apply NoDup_cons in Hn as [Hin Hn].
  apply NoDup_cons. split; [|by apply IH].
  intros Hin'. apply Hin. apply list_elem_of_fmap in Hin' as (x & Hx & Hxin).
  apply list_elem_of_omap. exists x. split; [done|]. by rewrite <- Hx.
Qed.

(** The statements of the transaction, one after the other, on any
    database: when they all go through, the result is migrated; and when
    the hadith table had no [uid] column before, every uid is now derived
    from its row and distinct. *)
Lemma migration_steps (d0 d1 d2 d3 d4 d6 d7 d8 d9 d10 d11 : Database)
    (r1 r2 r3 r4 r7 r8 r9 r10 r11 : ResultRows) :
  journal_wal d0 = true →
  apply_sql CreateTableMeta d0 = inr (d1, r1) →
  apply_sql CreateTableCollections d1 = inr (d2, r2) →
  apply_sql CreateTableHadith d2 = inr (d3, r3) →
  apply_sql (PragmaTableInfo "hadith") d3 = inr (d4, r4) →
  (if negb (existsb (λ name, String.eqb name "uid") (column_names r4))
   then ∃ d5 r5 r6, apply_sql AlterHadithAddUid d4 = inr (d5, r5)
                    ∧ apply_sql UpdateHadithBackfillUid d5 = inr (d6, r6)
   else d6 = d4) →
  apply_sql CreateIndexHadithCollection d6 = inr (d7, r7) →
  apply_sql CreateIndexHadithSearch d7 = inr (d8, r8) →
  apply_sql CreateUniqueIndexHadithUid d8 = inr (d9, r9) →
  apply_sql CreateTableUserSelected d9 = inr (d10, r10) →
  apply_sql InsertCollectionsFromHadith d10 = inr (d11, r11) →
  migrated d11 ∧ (pre_uid d0 → hadith_ok d11).
Proof.
  intros Hj E1 E2 E3 E4 E5 E7 E8 E9 E10 E11.
  destruct d0 as [j me co ha us]. simpl in Hj. subst j.
  unfold pre_uid. simpl hadith.
  assert (∃ m, d1 = mkDb true (Some m) co ha us) as [m ->].
  { simpl in E1. destruct me; injection E1 as <- <-; by eexists. }
  assert (∃ c, d2 = mkDb true (Some m) (Some c) ha us) as [c ->].
  { simpl in E2. destruct co; injection E2 as <- <-; by eexists. }
  assert (∃ t, d3 = mkDb true (Some m) (Some c) (Some t) us
               ∧ (ha = Some t ∨ has_uid t = false)) as (t & -> & Hlink).
  { simpl in E3. destruct ha; injection E3 as <- <-; eexists; eauto. }
  simpl in E4. injection E4 as <- <-.
  assert (∃ rs ic isr iu,
            d6 = mkDb true (Some m) (Some c) (Some (mkTable true rs ic isr iu)) us
            ∧ (match ha with Some t0 => has_uid t0 = false | None => True end →
               Forall uid_derived rs ∧ (iu = true → NoDup (uids rs))))
    as (rs & ic & isr & iu & -> & Hrs).
  { destruct t as [[] rs ic isr iu]; simpl in E5.
    - subst d6. eexists _, _, _, _. split; [done|].
      destruct Hlink as [->|Hu]; done.
    - destruct E5 as (d5 & r5 & r6 & Ea & Eb). simpl in Ea.
      injection Ea as <- <-. simpl in Eb.
      destruct (iu && negb (uids_unique (map backfill_uid (map clear_uid rs))))
        eqn:Eu; [done|].
      injection Eb as <- <-. eexists _, _, _, _. split; [done|].
      intros _. split.
      + apply Forall_map, Forall_map, Forall_true. apply backfill_clear_derived.
      + simpl. intros ->. simpl in Eu. apply negb_false_iff in Eu.
        by apply bool_decide_eq_true in Eu. }
  simpl in E7. injection E7 as <- <-.
  simpl in E8. injection E8 as <- <-.
  assert (d9 = mkDb true (Some m) (Some c) (Some (mkTable true rs true true true)) us
          ∧ (match ha with Some t0 => has_uid t0 = false | None => True end →
             NoDup (uids rs))) as [-> Hnd].
  { simpl in E9. destruct iu; simpl in E9.
    - injection E9 as <- <-. split; [done|]. intros H. by apply Hrs.
    - destruct (negb (uids_unique rs)) eqn:Eu; [done|]. injection E9 as <- <-.
      split; [done|]. intros _. apply negb_false_iff in Eu.
      by apply bool_decide_eq_true in Eu. }
  assert (∃ u, d10 = mkDb true (Some m) (Some c)
                       (Some (mkTable true rs true true true)) (Some u)) as [u ->].
  { simpl in E10. destruct us; injection E10 as <- <-; by eexists. }
  simpl in E11. injection E11 as <- <-. split.
  - eexists _, _, _, _. split; [reflexivity|]. apply fold_registers.
  - intros Hpre. unfold hadith_ok. simpl. split; [done|].
    destruct (Hrs Hpre) as [Hd _]. split; [done|].
    by apply uids_derived_nodup; [|apply Hnd].
Qed.


(** The two PRAGMAs: no transaction is opened or closed, and the tables
    are the same; outside a transaction a journal-mode PRAGMA that returns
    has switched the file to write-ahead logging. *)
Lemma runSql_pragma_cases (q : Sql) (w : World) (o : Outcome ResultRows) (w' : World) :
  q = PragmaJournalModeWal ∨ q = PragmaForeignKeysOn →
  runSql q w = (o, w') →
  txn w' = txn w ∧ same_tables (disk w) (disk w')
  ∧ (q = PragmaJournalModeWal → txn w = None →
     ∀ r, o = Returned r → journal_wal (disk w') = true)
  ∧ (q = PragmaForeignKeysOn → disk w' = disk w).
Proof.
  intros Hq. unfold runSql, try_catch, bind.
  destruct (getDatabaseConnection w) as [o0 w0] eqn:E0.
  apply getDatabaseConnection_cases in E0 as (_ & [D0 T0] & _).
  destruct o0 as [[]|e|].
  - destruct (execute q w0) as [o1 w1] eqn:E1.
    apply execute_cases in E1 as [_ P].
    destruct o1 as [r|e|].
    + intros [= <- <-].
      destruct Hq as [-> | ->]; simpl in P; rewrite T0 in P;
        destruct (txn w) eqn:T; injection P as <- <-; simpl;
        rewrite ?T0, ?D0; by repeat split.
    + unfold log_error, emit, throw. simpl. intros [= <- <-]. subst w1. simpl.
      rewrite T0, D0. by repeat split.
    + intros [= <- <-]. subst w1. simpl. rewrite T0, D0. by repeat split.
  - unfold log_error, emit, throw. simpl. intros [= <- <-]. simpl.
    rewrite T0, D0. by repeat split.
  - intros [= <- <-]. rewrite T0, D0. by repeat split.
Qed.

Lemma migration_body_evolves :
  evolves any_change
    (runSql CreateTableMeta >>
     runSql CreateTableCollections >>
     runSql CreateTableHadith >>
     (let* present := columnExists "hadith" "uid" in
      if negb present
      then runSql AlterHadithAddUid >> runSql UpdateHadithBackfillUid >> ret ()
      else ret ()) >>
     runSql CreateIndexHadithCollection >>
     runSql CreateIndexHadithSearch >>
     runSql CreateUniqueIndexHadithUid >>
     runSql CreateTableUserSelected >>
     runSql InsertCollectionsFromHadith >>
     ret ()).
Proof.
  assert (Hq : ∀ q, is_data q = true → evolves any_change (runSql q)).
  { intros q Hd. by apply evolves_runSql; [apply _|..]. }
  assert (Hr : evolves any_change (ret ())) by (apply evolves_ret; apply _).
  apply evolves_bind; [apply _|by apply Hq|]. intros _.
  apply evolves_bind; [apply _|by apply Hq|]. intros _.
  apply evolves_bind; [apply _|by apply Hq|]. intros _.
  apply evolves_bind; [apply _| |intros _].
  { apply evolves_bind; [apply _| |].
    - unfold columnExists. apply evolves_bind; [apply _|by apply Hq|].
      intros ?. apply evolves_ret; apply _.
    - intros present. destruct (negb present); [|done].
      apply evolves_bind; [apply _|by apply Hq|]. intros _.
      apply evolves_bind; [apply _|by apply Hq|]. by intros _. }
  apply evolves_bind; [apply _|by apply Hq|]. intros _.
  apply evolves_bind; [apply _|by apply Hq|]. intros _.
  apply evolves_bind; [apply _|by apply Hq|]. intros _.
  apply evolves_bind; [apply _|by apply Hq|]. intros _.
  apply evolves_bind; [apply _|by apply Hq|]. by intros _.
Qed.

(** A run that returns leaves a migrated database, committed. *)
Lemma migrations_returned (w : World) (w' : World) :
  runMigrations w = (Returned (), w') →
  txn w = None ∧ txn w' = None ∧ migrated (disk w')
  ∧ (pre_uid (disk w) → hadith_ok (disk w')).
Proof.
  unfold runMigrations. intros E.
  apply bind_returned in E as (r1 & w1 & E1 & E).
  apply bind_returned in E as (r2 & w2 & E2 & E).
  apply bind_returned in E as ([] & w3 & E3 & E).
  apply runSql_pragma_cases in E1 as (T1 & (_ & _ & H1 & _) & J1 & _); [|by left].
  apply runSql_pragma_cases in E2 as (T2 & _ & _ & D2); [|by right].
  specialize (D2 eq_refl).
  apply (runTransaction_cases any_change) in E3 as (_ & _ & P3);
    [|apply migration_body_evolves].
  destruct P3 as (T3 & T3' & _ & wa & wb & _ & _ & Da & Ta & Ea & Tb).
  destruct (log_info_done w3 w' _ _ _ E) as [D4 T4].
  split; [congruence|]. split; [congruence|]. rewrite D4.
  assert (Hpre : pre_uid (disk w) → pre_uid (disk w2)).
  { unfold pre_uid. by rewrite D2, H1. }
  assert (Va : view wa = disk w2) by (unfold view; by rewrite Ta).
  assert (Vb : view wb = disk w3) by (unfold view; by rewrite Tb).
  assert (Hj : journal_wal (view wa) = true).
  { rewrite Va, D2. apply (J1 eq_refl) with (r := r1); [congruence|done]. }
  rewrite <- Vb. rewrite <- Va in Hpre.
  cut (migrated (view wb) ∧ (pre_uid (view wa) → hadith_ok (view wb))).
  { intros [Hmig Hok]. split; [done|]. auto. }
  clear Vb Tb.
  apply bind_returned in Ea as (q1 & x1 & F1 & Ea).
  apply bind_returned in Ea as (q2 & x2 & F2 & Ea).
  apply bind_returned in Ea as (q3 & x3 & F3 & Ea).
  apply bind_returned in Ea as ([] & x6 & F456 & Ea).
  apply bind_returned in Ea as (q7 & x7 & F7 & Ea).
  apply bind_returned in Ea as (q8 & x8 & F8 & Ea).
  apply bind_returned in Ea as (q9 & x9 & F9 & Ea).
  apply bind_returned in Ea as (q10 & x10 & F10 & Ea).
  apply bind_returned in Ea as (q11 & x11 & F11 & Ea).
  injection Ea as <-.
  apply bind_returned in F456 as (present & x4 & F4 & F56).
  unfold columnExists in F4.
  apply bind_returned in F4 as (q4 & x4' & F4 & F4').
  injection F4' as <- <-.
  apply runSql_returned_view in F1, F2, F3, F4, F7, F8, F9, F10, F11; try done.
  eapply (migration_steps (view wa)); try done.
  destruct (negb _).
  - apply bind_returned in F56 as (q5 & x5 & F5 & F6).
    apply bind_returned in F6 as (q6 & x6' & F6 & F6').
    injection F6' as <-.
    apply runSql_returned_view in F5, F6; try done.
    by eexists _, _, _.
  - by injection F56 as <-.
Qed.




End MigrateFacts.

(** * The uid of the hadith rows *)

Module UidFacts.
Import Text Engine Client Migrate Hadith Notions ClientFacts SeedFacts MigrateFacts.

(** C5: every row the core writes has the uid [collection:id]: the rows
    of the seeding and the rows the migration backfills.  A migration that
    returns on a database without the column leaves the UNIQUE index in
    place with all uids derived and distinct, and any call of
    [seedDatabaseIfEmpty], however it ends, keeps it so.  Seeding two items
    with the same collection and id leaves one row with that uid, the
    second item's. *)
Theorem uid_derived_and_unique :
  (∀ item, uid_derived (row_of_item item))
  ∧ (∀ r, h_uid r = None → uid_derived (backfill_uid r))
  ∧ (∀ w w', runMigrations w = (Returned (), w') → pre_uid (disk w) →
       hadith_ok (disk w'))
  ∧ (∀ seedData w o w',
       holds hadith_ok w → seedDatabaseIfEmpty seedData w = (o, w') →
       holds hadith_ok w')
  ∧ (∀ (a b : SeedItem) (dev : bool) (dsk : Database) (m : gmap str str)
       (c : gmap str CollectionRow) (t : HadithTable) (fk : bool)
       (con : list LogLine),
       isValidSeedItem a = true → isValidSeedItem b = true →
       s_collection a = s_collection b → s_id a = s_id b →
       meta dsk = Some m → m !! seeded_key ≠ Some one →
       collections dsk = Some c →
       hadith dsk = Some t → rows t = [] →
       has_uid t = true → idx_hadith_uid t = true →
       ∃ w', seedDatabaseIfEmpty [a; b]
               (mkWorld dev true dsk None fk [Pass; Pass; Pass; Pass] con)
             = (Returned (), w')
         ∧ hadith (disk w') = Some (set_rows [row_of_item b] t)).
Proof.
  split; [exact row_of_item_uid|]. split.
  { intros r Hr. unfold uid_derived, backfill_uid. by rewrite Hr. }
  split.
  { intros w w' E Hpre. apply migrations_returned in E as (_ & _ & _ & H). auto. }
  split.
  { intros seedData w o w' H E. by eapply seed_keeps_hadith_ok. }
  intros a b dev dsk m c t fk con Ha Hb Hcol Hid Hm Hflag Hc Ht Hrows Hu Hi.
  rewrite (seed_takes_fresh_path [a; b] _ m t); try done;
    [|by repeat constructor].
  step_world.
  assert (Hcols : uniqueCollections [a; b] = [s_collection b]).
  { unfold uniqueCollections. simpl. rewrite Ha, Hb. simpl.
    rewrite Hcol. apply set_from_pair. }
  pose proof (fresh_import_run [a; b] dev dsk m c t fk [] con Hm Hc Ht Hu Hi) as Hrun.
  rewrite Hcols in Hrun. simpl in Hrun. rewrite Hrun; cycle 1.
  { rewrite take_nil. constructor. }
  { rewrite drop_nil. apply passing_nil. }
  eexists. split; [done|]. simpl. f_equal. f_equal.
  rewrite Ha, Hb. unfold replace_all_into. simpl. rewrite Hrows.
  unfold replace_into. simpl. unfold same_uid. simpl.
  rewrite Hcol, Hid, bool_decide_true by done. reflexivity.
Qed.

End UidFacts.

(** * Properties of the search *)

Module SearchFacts.
Import Text TextFacts Engine Client Hadith Notions ClientFacts SeedFacts.

(** ** LIKE with a literal between two [%] *)










(** ** The normalized query is literal *)




(** ** The order of the results *)

Lemma lex_compare_antisym (a b : list N) :
  lex_compare b a = CompOpp (lex_compare a b).
Proof.
  revert b. induction a as [|x a IH]; intros [|y b]; simpl; try done.
  rewrite (N.compare_antisym x y).
  destruct (x ?= y); simpl; [apply IH|done..].
Qed.

Lemma lex_compare_eq (a b : list N) : lex_compare a b = Eq → a = b.
Proof.
  revert b. induction a as [|x a IH]; intros [|y b]; simpl; try done.
  destruct (x ?= y) eqn:E; try done.
  apply N.compare_eq in E. subst y. intros H. f_equal. by apply IH.
Qed.

Lemma lex_compare_lt_trans (a b c : list N) :
  lex_compare a b = Lt → lex_compare b c = Lt → lex_compare a c = Lt.
Proof.
  revert b c. induction a as [|x a IH]; intros [|y b] [|z c]; simpl; try done.
  destruct (N.compare_spec x y) as [->|Hxy|Hxy]; try done.
  - destruct (N.compare_spec y z) as [->|Hyz|Hyz]; try done.
    apply IH.
  - intros _. destruct (N.compare_spec y z) as [->|Hyz|Hyz]; try done.
    + intros _. by apply N.compare_lt_iff in Hxy as ->.
    + intros _. assert (H : x < z) by lia. by apply N.compare_lt_iff in H as ->.
Qed.

#[export] Instance row_le_total : Total row_le.
Proof.
  intros a b. unfold row_le, row_leb.
  rewrite (lex_compare_antisym (code_points (h_collection a))
             (code_points (h_collection b))).
  destruct (lex_compare _ _); simpl; auto.
  destruct (Z.leb_spec (cast_integer (h_id a)) (cast_integer (h_id b))); [by left|].
  right. apply Z.leb_le. lia.
Qed.

#[export] Instance row_le_trans : Transitive row_le.
Proof.
  intros a b c. unfold row_le, row_leb.
  destruct (lex_compare (code_points (h_collection a))
              (code_points (h_collection b))) eqn:Eab; try done.
  - apply lex_compare_eq in Eab. rewrite Eab.
    destruct (lex_compare _ _); try done.
    intros H1 H2. apply Z.leb_le. apply Z.leb_le in H1, H2. lia.
  - intros _.
    destruct (lex_compare (code_points (h_collection b))
                (code_points (h_collection c))) eqn:Ebc; try done.
    + apply lex_compare_eq in Ebc. rewrite <- Ebc, Eab. done.
    + by rewrite (lex_compare_lt_trans _ _ _ Eab Ebc).
Qed.



(** ** The query *)






End SearchFacts.

(** * The properties on sample data *)

Section Samples.
Import Text Engine Client Migrate Hadith Notions.
Import ClientFacts SeedFacts MigrateFacts UidFacts SearchFacts.




Lemma uid_derived_and_unique_sample :
  ∃ w', seedDatabaseIfEmpty [item1; item1]
          (mkWorld true true fresh_schema None true [Pass; Pass; Pass; Pass] [])
        = (Returned (), w')
    ∧ hadith (disk w') = Some (set_rows [row_of_item item1] empty_table).
Proof.
  apply (proj2 (proj2 (proj2 (proj2 uid_derived_and_unique)))
           item1 item1 true fresh_schema ∅ ∅ empty_table true []).
  - reflexivity.
  - reflexivity.
  - reflexivity.
  - reflexivity.
  - reflexivity.
  - vm_compute. discriminate.
  - reflexivity.
  - reflexivity.
  - reflexivity.
  - reflexivity.
  - reflexivity.
Defined.


(** An older file whose two rows have distinct ids is migrated: the uids
    are backfilled and the collection is registered. *)
Lemma legacy_file_is_migrated :
  ∃ w', runMigrations (started false (legacy [legacy_row [49]; legacy_row [50]]))
        = (Returned (), w')
    ∧ hadith (disk w')
      = Some (mkTable true
                [backfill_uid (legacy_row [49]); backfill_uid (legacy_row [50])]
                true true true)
    ∧ collections (disk w') = Some {[ bukhari := mkCollection bukhari None None ]}.
Proof. eexists. split; [by vm_compute|]. split; by vm_compute. Qed.

(** An older file with two rows of the same collection and id cannot get
    the UNIQUE index: the migration throws and the tables are as before. *)
Lemma legacy_duplicates_are_refused :
  ∃ e w', runMigrations (started false (legacy [legacy_row [49]; legacy_row [49]]))
          = (Thrown e, w')
    ∧ same_tables (legacy [legacy_row [49]; legacy_row [49]]) (disk w').
Proof. eexists _, _. split; [by vm_compute|]. by vm_compute. Qed.

(** A COMMIT that fails: the call throws, and neither the flag nor the
    row is committed. *)
Lemma failed_commit_commits_nothing :
  ∃ e w',
    seedDatabaseIfEmpty [item1]
      (mkWorld true true fresh_schema None true
         [Pass; Pass; Pass; Pass; Pass; Pass; Raise] []) = (Thrown e, w')
    ∧ meta (disk w') = Some ∅
    ∧ hadith (disk w') = Some empty_table
    ∧ txn w' = None.
Proof. eexists _, _. split; [by vm_compute|]. by vm_compute. Qed.

(** The process stopping in the middle of the loop: the committed tables
    are as before the call. *)
Lemma stopped_import_commits_nothing :
  ∃ w',
    seedDatabaseIfEmpty [item1; item2; item3]
      (mkWorld true true fresh_schema None true
         [Pass; Pass; Pass; Pass; Pass; Crash] []) = (Halted, w')
    ∧ meta (disk w') = Some ∅
    ∧ hadith (disk w') = Some empty_table.
Proof. eexists. split; [by vm_compute|]. by vm_compute. Qed.

(** From an empty file: migrate, then seed two valid items and one
    without text.  Two rows are inserted, one item is skipped, the flag is
    set and the one collection is registered. *)
Lemma first_start :
  ∃ w',
    (runMigrations >>
     seedDatabaseIfEmpty [item1; mkSeed [50] bukhari [] None; item3])
      (started true empty_file) = (Returned (), w')
    ∧ hadith (disk w')
      = Some (mkTable true [row_of_item item1; row_of_item item3] true true true)
    ∧ meta (disk w') = Some {[ seeded_key := one ]}
    ∧ collections (disk w') = Some {[ bukhari := mkCollection bukhari None None ]}
    ∧ last (console w') = Some (mkLog INFO "Seed completed." (SeedCounts 2 1)).
Proof. eexists. split; [by vm_compute|]. by vm_compute. Qed.



End Samples.
